(** * Crane Command Center: the GitHub queue proxy

    A shallow embedding of [src/app/api/github/route.ts] (query builder,
    search client, normalizer, derivation rules, response cache and the
    [GET] handler) together with the card types of [types/github.ts],
    and the properties of the specification proved about it.

    JavaScript strings are sequences of UTF-16 code units.  The embedding
    uses Rocq's [string]: every character is a code unit below 256.
    JavaScript numbers that hold integers (epoch milliseconds, HTTP status
    codes, issue numbers) are [Z]. *)

From Stdlib Require Import ZArith List String Ascii Bool Lia DecimalString.
From stdpp Require Import base gmap strings.

Local Open Scope string_scope.
Local Open Scope list_scope.

(* ====================================================================== *)
(** * The JavaScript primitives the route relies on                        *)
(* ====================================================================== *)

Module JS.

(** ** Characters *)

Definition code (c : ascii) : N := N_of_ascii c.

(** [WhiteSpace] and [LineTerminator] code units below 256: TAB, LF, VT, FF,
    CR, SP and NBSP.  This one set is what the regular-expression escape
    [\s], [String.prototype.trim] and [parseInt] skip. *)
Definition isSpace (c : ascii) : bool :=
  let n := code c in
  ((9 <=? n) && (n <=? 13) || (n =? 32) || (n =? 160))%N.

(** [Canonicalize] of a code unit under the [i] flag (no [u] flag): the
    upper-case mapping, which is never allowed to send a code unit of 128
    or more to one below 128.  The patterns of this program hold ASCII
    characters only, so it matters only where a code unit lands with
    respect to the ASCII letters: [a-z] go to [A-Z], every other code unit
    stays outside [A-Z] or is unchanged. *)
Definition canonicalize (c : ascii) : ascii :=
  let n := code c in
  if ((97 <=? n) && (n <=? 122))%N then ascii_of_N (n - 32) else c.

(** ** Strings *)

(** [s.startsWith(p)] *)
Definition startsWith (s p : string) : bool := String.prefix p s.

Fixpoint dropS (n : nat) (s : string) : string :=
  match n, s with
  | O, _ => s
  | S n', String _ s' => dropS n' s'
  | S _, EmptyString => EmptyString
  end.

(** [s.replace(pat, rep)] with a string pattern: only the first occurrence
    (the leftmost one) is replaced. *)
Fixpoint replaceFirst (pat rep s : string) : string :=
  if String.prefix pat s then rep +:+ dropS (String.length pat) s
  else match s with
       | EmptyString => EmptyString
       | String c s' => String c (replaceFirst pat rep s')
       end.

(** [s.replace(/c/g, rep)] for a one-character pattern: every occurrence. *)
Fixpoint replaceAllChar (c : ascii) (rep s : string) : string :=
  match s with
  | EmptyString => EmptyString
  | String d s' =>
      (if Ascii.eqb d c then rep else String d EmptyString)
        +:+ replaceAllChar c rep s'
  end.

(** [String(n)] for an integer [n] *)
Definition showZ (n : Z) : string := NilZero.string_of_int (Z.to_int n).

(** [xs.join(sep)] *)
Definition join (sep : string) (xs : list string) : string :=
  String.concat sep xs.

(** [xs.includes(x)] *)
Definition includes (xs : list string) (x : string) : bool :=
  existsb (String.eqb x) xs.

(** [s.trim()], on the list of code units. *)
Fixpoint trimStart (s : list ascii) : list ascii :=
  match s with
  | c :: s' => if isSpace c then trimStart s' else s
  | [] => []
  end.

Definition trimEnd (s : list ascii) : list ascii :=
  rev (trimStart (rev s)).

Definition trim (s : list ascii) : list ascii := trimEnd (trimStart s).

(** ** [parseInt(s)] without a radix

    Leading white space is skipped, a sign is read, a [0x]/[0X] prefix
    selects radix 16, and the longest prefix of digits is the value; with no
    digit the result is [NaN], here [None].  The result is the exact
    integer: the one caller multiplies it by 1000 and hands it to [Date],
    whose range check (below) gives the same verdict on the exact integer
    as on its nearest double, and every in-range value is exact. *)

Definition digitValue (c : ascii) : option Z :=
  let n := Z.of_N (code c) in
  if ((48 <=? n) && (n <=? 57))%Z then Some (n - 48)%Z
  else if ((97 <=? n) && (n <=? 122))%Z then Some (n - 87)%Z
  else if ((65 <=? n) && (n <=? 90))%Z then Some (n - 55)%Z
  else None.

Definition digitIn (radix : Z) (c : ascii) : option Z :=
  match digitValue c with
  | Some d => if (d <? radix)%Z then Some d else None
  | None => None
  end.

(** The value of the longest digit prefix, [None] when it is empty. *)
Fixpoint digits (radix : Z) (acc : option Z) (s : list ascii) : option Z :=
  match s with
  | c :: s' =>
      match digitIn radix c with
      | Some d =>
          digits radix (Some (match acc with
                              | Some a => a * radix + d
                              | None => d
                              end)%Z) s'
      | None => acc
      end
  | [] => acc
  end.

Definition parseInt (str : string) : option Z :=
  let s := trimStart (list_ascii_of_string str) in
  let '(sign, s) :=
    match s with
    | "-"%char :: s' => ((-1)%Z, s')
    | "+"%char :: s' => (1%Z, s')
    | _ => (1%Z, s)
    end in
  let '(radix, s) :=
    match s with
    | "0"%char :: "x"%char :: s' => (16%Z, s')
    | "0"%char :: "X"%char :: s' => (16%Z, s')
    | _ => (10%Z, s)
    end in
  match digits radix None s with
  | Some v => Some (sign * v)%Z
  | None => None
  end.

(** ** [Date]

    A [Date] holds a time value in milliseconds since the epoch or is
    invalid ([None]). [new Date(v)] clips: a [NaN] or a value beyond
    8.64e15 in magnitude gives the invalid date. *)

Definition Date := option Z.

Definition maxTime : Z := 8640000000000000.

Definition newDate (v : option Z) : Date :=
  match v with
  | Some t => if (Z.abs t <=? maxTime)%Z then Some t else None
  | None => None
  end.

Definition digitChar (d : Z) : ascii := ascii_of_N (Z.to_N (48 + d)).

(** [width] decimal digits of [n], most significant first. *)
Fixpoint pad (width : nat) (n : Z) : string :=
  match width with
  | O => EmptyString
  | S w => pad w (n / 10) +:+ String (digitChar (n mod 10)) EmptyString
  end.

(** The proleptic Gregorian date of a day number (days since 1970-01-01),
    by eras of 400 years that start on the first of March. *)
Definition civil (days : Z) : Z * Z * Z :=
  let z := (days + 719468)%Z in
  let era := (z / 146097)%Z in
  let doe := (z - era * 146097)%Z in
  let yoe := ((doe - doe / 1460 + doe / 36524 - doe / 146096) / 365)%Z in
  let doy := (doe - (365 * yoe + yoe / 4 - yoe / 100))%Z in
  let mp := ((5 * doy + 2) / 153)%Z in
  let d := (doy - (153 * mp + 2) / 5 + 1)%Z in
  let m := (if (mp <? 10)%Z then mp + 3 else mp - 9)%Z in
  let y := (yoe + era * 400 + (if (m <=? 2)%Z then 1 else 0))%Z in
  (y, m, d).

Definition isoYear (y : Z) : string :=
  if ((0 <=? y) && (y <=? 9999))%Z then pad 4 y
  else (if (y <? 0)%Z then "-" else "+") +:+ pad 6 (Z.abs y).

Definition msPerDay : Z := 86400000.

(** [d.toISOString()]: [None] stands for the [RangeError] thrown on an
    invalid date. *)
Definition toISOString (d : Date) : option string :=
  match d with
  | None => None
  | Some t =>
      let '(y, m, dd) := civil (t / msPerDay) in
      let r := (t mod msPerDay)%Z in
      Some (isoYear y +:+ "-" +:+ pad 2 m +:+ "-" +:+ pad 2 dd +:+ "T"
            +:+ pad 2 (r / 3600000) +:+ ":" +:+ pad 2 (r / 60000 mod 60)
            +:+ ":" +:+ pad 2 (r / 1000 mod 60)
            +:+ "." +:+ pad 3 (r mod 1000) +:+ "Z")
  end.

End JS.

(* ====================================================================== *)
(** * Regular expressions, matched the way JavaScript matches them         *)
(* ====================================================================== *)

(** A backtracking matcher in continuation-passing style, after the
    ECMAScript pattern semantics: alternatives are tried left to right, a
    greedy quantifier tries one more iteration before it tries to stop, a
    lazy one the other way round, an iteration that consumes nothing is
    refused, a look-ahead runs its pattern without consuming, and
    [String.prototype.match] reports the leftmost start that succeeds. *)

Module Regex.

Inductive ClassItem : Type :=
| CChar (c : ascii)          (** a character of the class *)
| CSpace                     (** [\s] *)
| CNotSpace.                 (** [\S] *)

Inductive Regex : Type :=
| Eps                                         (** the empty pattern *)
| Lit (c : ascii)                             (** a pattern character *)
| Class (negated : bool) (items : list ClassItem)   (** [[...]], [[^...]] *)
| Seq (r1 r2 : Regex)
| Alt (r1 r2 : Regex)                         (** [r1|r2] *)
| Star (greedy : bool) (r : Regex)            (** [r*] and [r*?] *)
| Group (r : Regex)                           (** [(r)], capture 1 *)
| Look (r : Regex)                            (** [(?=r)] *)
| End.                                        (** [$] without the [m] flag *)

Declare Scope regex_scope.
Delimit Scope regex_scope with re.
Bind Scope regex_scope with Regex.
Infix "~>" := Seq (at level 60, right associativity) : regex_scope.
Infix "<|>" := Alt (at level 65, right associativity) : regex_scope.

(** [r+] is one iteration and then [r*]; [r?] tries [r] and then the
    empty pattern (the quantified patterns of this program never match the
    empty string, so the refusal of empty iterations does not come into
    it). *)
Definition Plus (r : Regex) : Regex := Seq r (Star true r).
Definition Opt (r : Regex) : Regex := Alt r Eps.

(** A run of pattern characters. *)
Fixpoint str (s : string) : Regex :=
  match s with
  | EmptyString => Eps
  | String c EmptyString => Lit c
  | String c s' => Seq (Lit c) (str s')
  end.

(** [\s] on its own. *)
Definition space : Regex := Class false [CSpace].

(** The value of capture group 1: [None] is [undefined]. *)
Definition Capture : Type := option (list ascii).

Definition Cont : Type := list ascii -> Capture -> option Capture.

Section Matcher.

(** The [i] flag. *)
Variable icase : bool.

Definition sameChar (p c : ascii) : bool :=
  if icase then Ascii.eqb (JS.canonicalize p) (JS.canonicalize c)
  else Ascii.eqb p c.

Definition inItem (c : ascii) (it : ClassItem) : bool :=
  match it with
  | CChar p => sameChar p c
  | CSpace => JS.isSpace c
  | CNotSpace => negb (JS.isSpace c)
  end.

Definition inClass (negated : bool) (items : list ClassItem) (c : ascii)
  : bool :=
  xorb negated (existsb (inItem c) items).

(** The iterations of a quantified pattern whose one iteration is [step].
    An iteration has to consume input, so [fuel], the length of the input
    at the start, is never used up before the input is. *)
Fixpoint starLoop (greedy : bool)
  (step : list ascii -> Capture -> Cont -> option Capture) (k : Cont)
  (fuel : nat) (s : list ascii) (cap : Capture) {struct fuel}
  : option Capture :=
  match fuel with
  | O => k s cap
  | S fuel' =>
      let again (_ : unit) :=
        step s cap
          (fun s' cap' =>
             if (length s' <? length s)%nat
             then starLoop greedy step k fuel' s' cap'
             else None) in
      if greedy then
        match again tt with
        | Some res => Some res
        | None => k s cap
        end
      else
        match k s cap with
        | Some res => Some res
        | None => again tt
        end
  end.

(** [run r s cap k]: match [r] at the front of the remaining input [s] and
    hand what is left to the continuation [k]; [None] is failure, after
    which the caller backtracks. *)
Fixpoint run (r : Regex) (s : list ascii) (cap : Capture) (k : Cont)
  {struct r} : option Capture :=
  match r with
  | Eps => k s cap
  | Lit p =>
      match s with
      | c :: s' => if sameChar p c then k s' cap else None
      | [] => None
      end
  | Class negated items =>
      match s with
      | c :: s' => if inClass negated items c then k s' cap else None
      | [] => None
      end
  | Seq r1 r2 => run r1 s cap (fun s' cap' => run r2 s' cap' k)
  | Alt r1 r2 =>
      match run r1 s cap k with
      | Some res => Some res
      | None => run r2 s cap k
      end
  | Star greedy r' => starLoop greedy (run r') k (length s) s cap
  | Group r' =>
      run r' s cap
        (fun s' _ => k s' (Some (firstn (length s - length s') s)))
  | Look r' =>
      match run r' s cap (fun _ cap' => Some cap') with
      | Some cap' => k s cap'
      | None => None
      end
  | End =>
      match s with
      | [] => k s cap
      | _ :: _ => None
      end
  end.

(** One attempt at a given start of the input. *)
Definition matchAt (r : Regex) (s : list ascii) : option Capture :=
  run r s None (fun _ cap => Some cap).

(** [s.match(r)] without the [g] flag: the first start, from the left, at
    which the pattern matches; [None] is [null]. *)
Fixpoint exec (r : Regex) (s : list ascii) : option Capture :=
  match matchAt r s with
  | Some cap => Some cap
  | None =>
      match s with
      | [] => None
      | _ :: s' => exec r s'
      end
  end.

End Matcher.

End Regex.

Import Regex.

(* ====================================================================== *)
(** * Types ([types/github.ts] and the interfaces of the route)            *)
(* ====================================================================== *)

(** [QueueType]: a union of five string literals; at run time a queue is
    the string itself. *)
Inductive QueueType : Type :=
| NeedsQa | NeedsPm | DevQueue | ReadyToMerge | InFlight.

Definition queueName (q : QueueType) : string :=
  match q with
  | NeedsQa => "needs-qa"
  | NeedsPm => "needs-pm"
  | DevQueue => "dev-queue"
  | ReadyToMerge => "ready-to-merge"
  | InFlight => "in-flight"
  end.

Module Label.
Record t : Type := mk {
  name : string;
  color : string;
  description : option string
}.
End Label.
Abbreviation GitHubLabel := Label.t.

(** [GitHubIssue], the raw item of the search response; [pull_request] is
    kept only as far as the normalizer looks at it: present or not. *)
Module Issue.
Record t : Type := mk {
  number : Z;
  title : string;
  html_url : string;
  body : option string;
  labels : list GitHubLabel;
  updated_at : string;
  pull_request : option string
}.
End Issue.
Abbreviation GitHubIssue := Issue.t.

Inductive CardType : Type := TIssue | TPr.
Inductive Verdict : Type := PASS | FAIL | BLOCKED.
Inductive QaProvider : Type := Anthropic | Openai.

(** [WorkQueueCard]; an optional field ([f?: T]) is an [option].  [None]
    stands for a property that is missing and for one that holds
    [undefined]: the type does not tell the two apart, and neither does the
    JSON that leaves the server. *)
Module Card.
Record t : Type := mk {
  type : CardType;
  number : Z;
  title : string;
  url : string;
  body : string;
  labels : list GitHubLabel;
  updatedAt : string;
  previewUrl : option string;
  statusLabels : list string;
  needsLabels : list string;
  qaGrade : option string;
  hasAgentBrief : bool;
  lastEventType : option string;
  lastEventTimestamp : option string;
  overallVerdict : option Verdict;
  provenanceVerified : option bool;
  qaProvider : option QaProvider;
  qaModel : option string;
  qaTemperature : option Z
}.
End Card.
Abbreviation WorkQueueCard := Card.t.

Record GitHubQueueResponse : Type := {
  queue : string;
  cards : list WorkQueueCard;
  cached : bool;
  fetchedAt : string
}.

(** A thrown value: every one this route can see is an [Error] object, of
    which the handler reads the [message]. *)
Inductive Exn : Type :=
| Error (message : string)
| RangeError (message : string)
| TypeError (message : string)
| SyntaxError (message : string).

Definition message (e : Exn) : string :=
  match e with
  | Error m | RangeError m | TypeError m | SyntaxError m => m
  end.

(* ====================================================================== *)
(** * The world the route runs in                                          *)
(* ====================================================================== *)

(** The response of the search provider as the route reads it: the status,
    [headers.get('X-RateLimit-Reset')] ([None] is [null]), what
    [await response.text()] gives: the text of the body, or the exception
    of a body that cannot be read, and what [response.json()] followed by
    [.items] gives: the raw items, or the exception of a body that is not
    the expected JSON. *)
Record HttpResponse : Type := {
  status : Z;
  rateLimitReset : option string;
  text : Exn + string;
  items : Exn + list GitHubIssue
}.

(** [response.ok] *)
Definition ok (r : HttpResponse) : bool :=
  ((200 <=? status r) && (status r <=? 299))%Z.

(** An outbound request: the URL and the headers of the [fetch] call. *)
Record OutboundRequest : Type := {
  req_url : string;
  req_headers : list (string * string)
}.

(** [fetch] resolves to a response or rejects. *)
Inductive FetchResult : Type :=
| Responded (r : HttpResponse)
| Rejected (e : Exn).

Record CacheEntry (A : Type) : Type := {
  data : A;
  timestamp : Z
}.
Arguments data {A} _.
Arguments timestamp {A} _.

(** The state around a request: the module-level [cache] ([A] is the type
    of the payloads, [any] in the source), the system clock as the sequence
    of its successive readings and the number of readings taken so far, the
    outbound requests performed so far (latest first), and the provider:
    its answer to a request, given how many were made before it. *)
Record World (A : Type) : Type := {
  cache : gmap string (CacheEntry A);
  clock : nat -> Z;
  reads : nat;
  outbound : list OutboundRequest;
  provider : nat -> OutboundRequest -> FetchResult
}.
Arguments cache {A} _.
Arguments clock {A} _.
Arguments reads {A} _.
Arguments outbound {A} _.
Arguments provider {A} _.

Definition setCacheMap {A} (c : gmap string (CacheEntry A)) (w : World A)
  : World A :=
  {| cache := c; clock := clock w; reads := reads w;
     outbound := outbound w; provider := provider w |}.

(** State passing. *)
Definition M (W A : Type) : Type := W -> A * W.

Definition ret {W A} (x : A) : M W A := fun w => (x, w).

Definition bind {W A B} (m : M W A) (f : A -> M W B) : M W B :=
  fun w => let '(x, w') := m w in f x w'.

Notation "'let*' x ':=' m 'in' k" := (bind m (fun x => k))
  (at level 10, x name, m at level 100, k at level 200).

(** Replace the cache, the one component the route assigns. *)
Definition modifyCache {A}
  (f : gmap string (CacheEntry A) -> gmap string (CacheEntry A))
  : M (World A) unit :=
  fun w => (tt, setCacheMap (f (cache w)) w).

(** [Date.now()]: the next reading of the clock. *)
Definition Date_now {A} : M (World A) Z := fun w =>
  (clock w (reads w),
   {| cache := cache w; clock := clock w; reads := S (reads w);
      outbound := outbound w; provider := provider w |}).

(** [fetch(url, {headers})] *)
Definition fetch {A} (url : string) (headers : list (string * string))
  : M (World A) FetchResult := fun w =>
  let rq := {| req_url := url; req_headers := headers |} in
  (provider w (length (outbound w)) rq,
   {| cache := cache w; clock := clock w; reads := reads w;
      outbound := rq :: outbound w; provider := provider w |}).

(* ====================================================================== *)
(** * CACHE                                                                *)
(* ====================================================================== *)

Definition CACHE_TTL : Z := 60000.

(** [getCached]: [None] is [null].  The clock is read only when the key
    has an entry ([&&] evaluates its right operand only then). *)
Definition getCached {A} (key : string) : M (World A) (option A) :=
  fun w =>
    match cache w !! key with
    | Some cached =>
        (let* now := Date_now in
         if (now - timestamp cached <? CACHE_TTL)%Z
         then ret (Some (data cached))
         else let* _ := modifyCache (delete key) in ret None) w
    | None => (let* _ := modifyCache (delete key) in ret None) w
    end.

Definition setCache {A} (key : string) (d : A) : M (World A) unit :=
  let* now := Date_now in
  modifyCache (insert key {| data := d; timestamp := now |}).

(* ====================================================================== *)
(** * GITHUB API                                                           *)
(* ====================================================================== *)

Definition GITHUB_OWNER : string := "durganfieldguide".
Definition GITHUB_REPO : string := "dfg-console".

Definition dq : string := String (ascii_of_N 34) EmptyString.

(** [getQueryForQueue]: a [switch] over the string, whose [default] arm
    throws. *)
Definition getQueryForQueue (queue : string) : Exn + string :=
  let base := "repo:" +:+ GITHUB_OWNER +:+ "/" +:+ GITHUB_REPO
              +:+ "+state:open" in
  if String.eqb queue "needs-qa" then
    inr (base +:+ "+label:" +:+ dq +:+ "needs:qa" +:+ dq)
  else if String.eqb queue "needs-pm" then
    inr (base +:+ "+label:" +:+ dq +:+ "needs:pm" +:+ dq)
  else if String.eqb queue "dev-queue" then
    inr (base +:+ "+label:" +:+ dq +:+ "status:ready" +:+ dq
              +:+ "+label:" +:+ dq +:+ "needs:dev" +:+ dq)
  else if String.eqb queue "ready-to-merge" then
    inr (base +:+ "+label:" +:+ dq +:+ "status:verified" +:+ dq)
  else if String.eqb queue "in-flight" then
    inr (base +:+ "+label:" +:+ dq +:+ "status:in-progress" +:+ dq)
  else inl (Error ("Unknown queue type: " +:+ queue)).

(** The global replace of the route: every double quote becomes [%22]. *)
Definition encodeQuery (query : string) : string :=
  JS.replaceAllChar (ascii_of_N 34) "%22" query.

Definition searchUrl (encodedQuery : string) : string :=
  "https://api.github.com/search/issues?q=" +:+ encodedQuery
  +:+ "&sort=updated&order=desc&per_page=50".

Definition searchHeaders (token : string) : list (string * string) :=
  [("Authorization", "Bearer " +:+ token);
   ("Accept", "application/vnd.github+json");
   ("User-Agent", "dfg-app")].

(** ** HELPER FUNCTIONS *)

Definition LF : ascii := ascii_of_N 10.

(** [/(?:preview|deploy)(?:\s+url)?:\s*(https?:\/\/[^\s)]+)/i] *)
Definition previewRe : Regex :=
  ((str "preview" <|> str "deploy")
   ~> Opt (Plus space ~> str "url")
   ~> Lit ":"
   ~> Star true space
   ~> Group (str "http" ~> Opt (Lit "s") ~> str "://"
             ~> Plus (Class true [CSpace; CChar ")"])))%re.

(** [/##\s*Agent Brief\s*\n([\s\S]*?)(?=\n##|$)/i] *)
Definition briefRe : Regex :=
  (str "##" ~> Star true space ~> str "Agent Brief" ~> Star true space
   ~> Lit LF
   ~> Group (Star false (Class false [CSpace; CNotSpace]))
   ~> Look ((Lit LF ~> str "##") <|> End))%re.

Definition extractPreviewUrl (body : string) : option string :=
  match exec true previewRe (list_ascii_of_string body) with
  | Some (Some url) => Some (string_of_list_ascii url)
  | Some None => None
  | None => None
  end.

(** [extractAgentBrief]: [None] is [null].  Capture 1 takes part in every
    match of [briefRe] (lemma [briefRe_captures]), so [briefMatch[1]] is
    never [undefined]. *)
Definition extractAgentBrief (body : string) : option string :=
  match exec true briefRe (list_ascii_of_string body) with
  | None => None
  | Some cap =>
      let brief := JS.trim (default [] cap) in
      if (length brief <? 10)%nat then None
      else Some (string_of_list_ascii brief)
  end.

(** ** [normalizeGitHubIssue] *)

Definition normalizeGitHubIssue (issue : GitHubIssue) : WorkQueueCard :=
  let labels :=
    map (fun l => Label.mk (Label.name l) (Label.color l)
                           (Label.description l))
        (Issue.labels issue) in
  (* issue.body || '' : null and the empty string both give '' *)
  let body := default "" (Issue.body issue) in
  let statusLabels :=
    map Label.name
        (List.filter (fun l => JS.startsWith (Label.name l) "status:")
                     labels) in
  let needsLabels :=
    map Label.name
        (List.filter (fun l => JS.startsWith (Label.name l) "needs:")
                     labels) in
  let qaGradeLabel :=
    List.find (fun l => JS.startsWith (Label.name l) "qa-grade:") labels in
  let qaGrade :=
    match qaGradeLabel with
    | Some l => Some (JS.replaceFirst "qa-grade:" "" (Label.name l))
    | None => None
    end in
  let previewUrl := extractPreviewUrl body in
  let hasAgentBrief :=
    match extractAgentBrief body with Some _ => true | None => false end in
  {| Card.type := match Issue.pull_request issue with
                  | Some _ => TPr
                  | None => TIssue
                  end;
     Card.number := Issue.number issue;
     Card.title := Issue.title issue;
     Card.url := Issue.html_url issue;
     Card.body := body;
     Card.labels := labels;
     Card.updatedAt := Issue.updated_at issue;
     Card.previewUrl := previewUrl;
     Card.statusLabels := statusLabels;
     Card.needsLabels := needsLabels;
     Card.qaGrade := qaGrade;
     Card.hasAgentBrief := hasAgentBrief;
     Card.lastEventType := None;
     Card.lastEventTimestamp := None;
     Card.overallVerdict := None;
     Card.provenanceVerified := None;
     Card.qaProvider := None;
     Card.qaModel := None;
     Card.qaTemperature := None |}.

(** ** [fetchGitHubQueue]

    [inl] is a thrown exception.  The [console.error] call and the read of
    the error body it logs leave no trace in the result. *)

(** The error thrown for a 403 or a 429. *)
Definition rateLimitError (resetTime : option string) : Exn :=
  match resetTime with
  | Some (String c rest as resetTime) =>
      (* a non-empty string is truthy *)
      match JS.toISOString
              (JS.newDate (option_map (fun n => n * 1000)%Z
                                      (JS.parseInt resetTime))) with
      | Some iso =>
          Error ("GitHub rate limit exceeded" +:+ ". Resets at " +:+ iso)
      | None => RangeError "Invalid time value"
      end
  | _ => Error ("GitHub rate limit exceeded" +:+ "")
  end.

Definition fetchGitHubQueue {A} (queue token : string)
  : M (World A) (Exn + list WorkQueueCard) :=
  match getQueryForQueue queue with
  | inl e => ret (inl e)
  | inr query =>
      let encodedQuery := encodeQuery query in
      let url := searchUrl encodedQuery in
      let* response := fetch url (searchHeaders token) in
      match response with
      | Rejected e => ret (inl e)
      | Responded response =>
          if negb (ok response) then
            match text response with
            | inl e => ret (inl e)
            | inr errorText =>
                (* console.error *)
                if ((status response =? 403) || (status response =? 429))%Z
                then ret (inl (rateLimitError (rateLimitReset response)))
                else ret (inl (Error ("GitHub API error: "
                                      +:+ JS.showZ (status response))))
            end
          else
            match items response with
            | inl e => ret (inl e)
            | inr items => ret (inr (map normalizeGitHubIssue items))
            end
      end
  end.

(* ====================================================================== *)
(** * ROUTE HANDLER                                                        *)
(* ====================================================================== *)

(** The inbound request, as far as the handler reads it: the search
    parameters of its URL, in order. *)
Record Request : Type := {
  searchParams : list (string * string)
}.

(** [searchParams.get(name)]: the first value given for the name, else
    [null]. *)
Definition searchParams_get (request : Request) (name : string)
  : option string :=
  option_map snd
    (List.find (fun p => String.eqb (fst p) name) (searchParams request)).

Inductive ResponseBody : Type :=
| ErrorBody (code message : string)       (** [{error: {code, message}}] *)
| QueueBody (r : GitHubQueueResponse).

Record NextResponse : Type := {
  resp_status : Z;
  resp_headers : list (string * string);
  resp_body : ResponseBody
}.

Definition errorResponse (status : Z) (code message : string)
  : NextResponse :=
  {| resp_status := status; resp_headers := [];
     resp_body := ErrorBody code message |}.

Definition queueResponse (r : GitHubQueueResponse) : NextResponse :=
  {| resp_status := 200; resp_headers := [("Cache-Control", "no-store")];
     resp_body := QueueBody r |}.

(** The payload the handler caches: the object [{cards, fetchedAt}]. *)
Record CachedQueue : Type := {
  cq_cards : list WorkQueueCard;
  cq_fetchedAt : string
}.

(** A string or [undefined]/[null] used as a condition: the empty string
    is false like the missing one. *)
Definition truthy (s : option string) : bool :=
  match s with
  | Some (String _ _) => true
  | _ => false
  end.

Definition validQueues : list string :=
  ["needs-qa"; "needs-pm"; "dev-queue"; "ready-to-merge"; "in-flight"].

(** [GET]; [GITHUB_TOKEN] is [process.env.GITHUB_TOKEN]. *)
Definition GET (GITHUB_TOKEN : option string) (request : Request)
  : M (World CachedQueue) NextResponse :=
  let token := GITHUB_TOKEN in
  if negb (truthy token) then
    ret (errorResponse 401 "CONFIG_ERROR" "GitHub token not configured")
  else
    let queue := searchParams_get request "queue" in
    if negb (truthy queue) then
      ret (errorResponse 400 "MISSING_PARAMETER"
                         "Queue parameter is required")
    else
      let queue := default "" queue in
      let token := default "" token in
      if negb (JS.includes validQueues queue) then
        ret (errorResponse 400 "INVALID_PARAMETER"
               ("Invalid queue type. Must be one of: "
                +:+ JS.join ", " validQueues))
      else
        let cacheKey := "github:queue:" +:+ queue in
        let* cachedData := getCached cacheKey in
        match cachedData with
        | Some cachedData =>
            ret (queueResponse
                   {| queue := queue; cards := cq_cards cachedData;
                      cached := true;
                      fetchedAt := cq_fetchedAt cachedData |})
        | None =>
            (* try *)
            let* fetched := fetchGitHubQueue queue token in
            match fetched with
            | inr cards =>
                let* now := Date_now in
                match JS.toISOString (JS.newDate (Some now)) with
                | Some fetchedAt =>
                    let* _ := setCache cacheKey
                                {| cq_cards := cards;
                                   cq_fetchedAt := fetchedAt |} in
                    ret (queueResponse
                           {| queue := queue; cards := cards;
                              cached := false; fetchedAt := fetchedAt |})
                | None =>
                    ret (errorResponse 502 "GITHUB_ERROR"
                                       "Invalid time value")
                end
            (* catch (error) *)
            | inl error =>
                ret (errorResponse 502 "GITHUB_ERROR" (message error))
            end
        end.

(** The number of outbound requests performed so far. *)
Definition fetches {A} (w : World A) : nat := length (outbound w).


(* ====================================================================== *)
(** * Vocabulary of the specification                                      *)
(* ====================================================================== *)

(** ** Response cache *)

(** A use of the cache: a read or a write. *)
Inductive CacheOp (A : Type) : Type :=
| Get (key : string)
| Put (key : string) (d : A).
Arguments Get {A} _.
Arguments Put {A} _ _.

Definition runOp {A} (op : CacheOp A) (w : World A) : World A :=
  match op with
  | Get key => snd (getCached key w)
  | Put key d => snd (setCache key d w)
  end.

Fixpoint runOps {A} (ops : list (CacheOp A)) (w : World A) : World A :=
  match ops with
  | [] => w
  | op :: ops' => runOps ops' (runOp op w)
  end.

Definition putsTo {A} (key : string) (op : CacheOp A) : bool :=
  match op with
  | Put k _ => String.eqb k key
  | Get _ => false
  end.

(** No write to [key] among [ops]. *)
Definition noPut {A} (key : string) (ops : list (CacheOp A)) : Prop :=
  forallb (fun op => negb (putsTo key op)) ops = true.

(** The clock never runs backwards. *)
Definition monotone (c : nat -> Z) : Prop :=
  forall i j, (i <= j)%nat -> (c i <= c j)%Z.

(** The next reading of the clock. *)
Definition now {A} (w : World A) : Z := clock w (reads w).

(** The world after one reading of the clock. *)
Definition tick {A} (w : World A) : World A := snd (Date_now w).

(** A world with an empty cache, a given clock and an unreachable
    provider, for examples. *)
Definition exampleWorld {A : Type} (c : nat -> Z) : World A :=
  {| cache := ∅; clock := c; reads := 0; outbound := [];
     provider := fun _ _ => Rejected (TypeError "fetch failed") |}.

(** ** Queues *)

Definition allQueues : list QueueType :=
  [NeedsQa; NeedsPm; DevQueue; ReadyToMerge; InFlight].

(** The label filters of each queue (section 4.1 of the specification). *)
Definition queueLabels (q : QueueType) : list string :=
  match q with
  | NeedsQa => ["needs:qa"]
  | NeedsPm => ["needs:pm"]
  | DevQueue => ["status:ready"; "needs:dev"]
  | ReadyToMerge => ["status:verified"]
  | InFlight => ["status:in-progress"]
  end.

(** The fixed repository scope and the open-state filter. *)
Definition queryScope : string :=
  "repo:durganfieldguide/dfg-console+state:open".

(** The request [fetchGitHubQueue] sends for a query in its encoded
    form. *)
Definition searchRequest (encodedQuery token : string) : OutboundRequest :=
  {| req_url := searchUrl encodedQuery;
     req_headers := searchHeaders token |}.

(** The key of a queue in the cache. *)
Definition cacheKey (q : QueueType) : string :=
  "github:queue:" +:+ queueName q.

(** ** Reading the matcher

    Functions that say what the matcher does on the shapes of pattern this
    program uses; the properties below prove that it does. *)

(** A run of pattern characters at the front of the input: what is left
    after it. *)
Fixpoint matchLit (icase : bool) (p s : list ascii) : option (list ascii) :=
  match p with
  | [] => Some s
  | c :: p' =>
      match s with
      | d :: s' => if sameChar icase c d then matchLit icase p' s' else None
      | [] => None
      end
  end.

(** The input after its longest prefix of characters that pass [P]. *)
Fixpoint skip (P : ascii -> bool) (s : list ascii) : list ascii :=
  match s with
  | c :: s' => if P c then skip P s' else s
  | [] => []
  end.

(** The longest prefix of characters that pass [P]. *)
Fixpoint span (P : ascii -> bool) (s : list ascii) : list ascii :=
  match s with
  | c :: s' => if P c then c :: span P s' else []
  | [] => []
  end.

(** A greedy [[...]*]: the longest run first, then shorter ones, until the
    continuation accepts. *)
Fixpoint greedyRun (P : ascii -> bool) (k : Cont) (s : list ascii)
  (cap : Capture) : option Capture :=
  match s with
  | c :: s' =>
      if P c then
        match greedyRun P k s' cap with
        | Some res => Some res
        | None => k s cap
        end
      else k s cap
  | [] => k s cap
  end.

(** A lazy [[...]*?]: the shortest run first. *)
Fixpoint lazyRun (P : ascii -> bool) (k : Cont) (s : list ascii)
  (cap : Capture) : option Capture :=
  match k s cap with
  | Some res => Some res
  | None =>
      match s with
      | c :: s' => if P c then lazyRun P k s' cap else None
      | [] => None
      end
  end.

(** ** Preview URL *)

(** A character a preview URL may hold: no white space, no closing
    parenthesis. *)
Definition urlChar (c : ascii) : bool :=
  negb (JS.isSpace c) && negb (Ascii.eqb c ")").

(** The parts of [previewRe]. *)
Definition kwRe : Regex := (str "preview" <|> str "deploy")%re.
Definition sepRe : Regex := Opt (Plus space ~> str "url")%re.
Definition urlRe : Regex :=
  Group (str "http" ~> Opt (Lit "s") ~> str "://"
         ~> Plus (Class true [CSpace; CChar ")"]))%re.
Definition tailRe : Regex := (Lit ":" ~> Star true space ~> urlRe)%re.

(** What [previewRe] does at one start of the input, part by part: the
    URL, when there is one. *)
Definition previewUrlAt (s : list ascii) : option (list ascii) :=
  match matchLit true (list_ascii_of_string "http") s with
  | None => None
  | Some s1 =>
      let s2 := match s1 with
                | c :: s1' => if sameChar true "s" c then s1' else s1
                | [] => s1
                end in
      match matchLit true (list_ascii_of_string "://") s2 with
      | Some (c :: s3) =>
          if urlChar c
          then Some (firstn (length s - length (skip urlChar s3)) s)
          else None
      | _ => None
      end
  end.

Definition previewTailAt (s : list ascii) : option (list ascii) :=
  match s with
  | c :: s1 =>
      if sameChar true ":" c then previewUrlAt (skip JS.isSpace s1) else None
  | [] => None
  end.

Definition previewSepAt (s : list ascii) : option (list ascii) :=
  match s with
  | c :: s1 =>
      if JS.isSpace c then
        match matchLit true (list_ascii_of_string "url")
                       (skip JS.isSpace s1) with
        | Some s2 => previewTailAt s2
        | None => None
        end
      else previewTailAt s
  | [] => None
  end.

Definition previewAt (s : list ascii) : option (list ascii) :=
  match matchLit true (list_ascii_of_string "preview") s with
  | Some s1 => previewSepAt s1
  | None =>
      match matchLit true (list_ascii_of_string "deploy") s with
      | Some s1 => previewSepAt s1
      | None => None
      end
  end.

(** [a] reads [p] when the case of letters is ignored. *)
Definition ciEq (a : list ascii) (p : string) : Prop :=
  map JS.canonicalize a = map JS.canonicalize (list_ascii_of_string p).

Definition spaces (ws : list ascii) : Prop :=
  Forall (fun c => JS.isSpace c = true) ws.

(** An [http://] or [https://] URL: the scheme, in any case, and at least
    one more character, none of them white space or a closing
    parenthesis. *)
Definition IsUrl (url : list ascii) : Prop :=
  exists scheme tail : list ascii,
    url = scheme ++ tail /\
    (ciEq scheme "http://" \/ ciEq scheme "https://") /\
    tail <> [] /\ Forall (fun c => urlChar c = true) tail.

(** The URL ends where the input ends or goes on with white space or a
    closing parenthesis. *)
Definition stopsAt (rest : list ascii) : Prop :=
  match rest with
  | c :: _ => urlChar c = false
  | [] => True
  end.

(** What stands between the keyword and the colon.  In the code: nothing,
    or white space and then [url]. *)
Definition sepOfCode (sep : list ascii) : Prop :=
  sep = [] \/
  exists ws u : list ascii,
    sep = ws ++ u /\ ws <> [] /\ spaces ws /\ ciEq u "url".

(** In the words of the specification: optionally [url]. *)
Definition sepAsStated (sep : list ascii) : Prop :=
  sep = [] \/ ciEq sep "url".

(** The preview pattern at the front of [s], with URL [url]: the keyword,
    what may follow it, a colon, optional white space and the URL. *)
Definition PreviewAt (sepOk : list ascii -> Prop) (s url : list ascii)
  : Prop :=
  exists kw sep ws rest : list ascii,
    s = kw ++ sep ++ ":"%char :: ws ++ url ++ rest /\
    (ciEq kw "preview" \/ ciEq kw "deploy") /\
    sepOk sep /\ spaces ws /\ IsUrl url /\ stopsAt rest.

(** The first match, from the left, of a pattern in a body, and the
    absence of any. *)
Definition FirstMatch {X} (At : list ascii -> X -> Prop)
  (body : list ascii) (x : X) : Prop :=
  exists pre suf : list ascii,
    body = pre ++ suf /\ At suf x /\
    forall (pre' suf' : list ascii) (x' : X),
      body = pre' ++ suf' -> (length pre' < length pre)%nat ->
      ~ At suf' x'.

Definition NoMatch {X} (At : list ascii -> X -> Prop) (body : list ascii)
  : Prop :=
  forall (pre suf : list ascii) (x : X), body = pre ++ suf -> ~ At suf x.

(** ** Orchestration *)

(** A live entry: one that [getCached] would return now. *)
Definition live {A} (w : World A) (key : string) : Prop :=
  exists e : CacheEntry A,
    cache w !! key = Some e /\ (now w - timestamp e < CACHE_TTL)%Z.

(** The query of a queue as it goes into the URL. *)
Definition encodedQueryOf (q : QueueType) : string :=
  queryScope
  +:+ String.concat ""
        (map (fun l => "+label:%22" +:+ l +:+ "%22") (queueLabels q)).

(** A request for a queue, by its one parameter. *)
Definition asksFor (request : Request) (q : QueueType) : Prop :=
  searchParams_get request "queue" = Some (queueName q).
(** ** Worlds for the examples *)

Definition exampleItems : list GitHubIssue :=
  [Issue.mk 41 "Queue page" "https://github.com/o/r/issues/41"
     (Some "Preview: https://pr-41.example.dev")
     [Label.mk "needs:qa" "fbca04" None] "2026-03-01T09:00:00Z" None].

(** A provider that always gives the same answer. *)
Definition answering (response : HttpResponse)
  : nat -> OutboundRequest -> FetchResult :=
  fun _ _ => Responded response.

(** A world with an empty cache, a clock that starts on 2023-11-14 and
    gains a second per reading, for a while, and a given provider. *)
Definition worldWith
  (p : nat -> OutboundRequest -> FetchResult) : World CachedQueue :=
  {| cache := ∅;
     clock := fun n => (1700000000000 + 1000 * Z.of_nat (Nat.min n 60))%Z;
     reads := 0; outbound := []; provider := p |}.

Definition okResponse : HttpResponse :=
  {| status := 200; rateLimitReset := None; text := inr "";
     items := inr exampleItems |}.

(** A rate-limit answer whose reset header holds no number. *)
Definition limitedResponse : HttpResponse :=
  {| status := 429;
     rateLimitReset := Some "Wed, 21 Oct 2026 07:28:00 GMT";
     text := inr "rate limited"; items := inr [] |}.

Definition needsQaRequest : Request :=
  {| searchParams := [("queue", "needs-qa")] |}.

(** ** Agent brief, as the code reads it *)

(** The parts of [briefRe]. *)
Definition stopRe : Regex := ((Lit LF ~> str "##") <|> End)%re.
Definition textRe : Regex :=
  (Lit LF ~> Group (Star false (Class false [CSpace; CNotSpace]))
   ~> Look stopRe)%re.

(** Where the look-ahead of [briefRe] succeeds: at the end of the input
    and before a line feed followed by [##]. *)
Definition stopsBrief (s : list ascii) : bool :=
  match s with
  | [] => true
  | c1 :: c2 :: c3 :: _ =>
      Ascii.eqb c1 LF && Ascii.eqb c2 "#" && Ascii.eqb c3 "#"
  | _ => false
  end.

(** The lazy capture: the input up to the first place where the
    look-ahead succeeds. *)
Fixpoint briefText (s : list ascii) : list ascii :=
  match s with
  | [] => []
  | c :: s' => if stopsBrief s then [] else c :: briefText s'
  end.

(** The greedy [\s*] before [\n]: within the white space at the front of
    the input, what follows its last line feed. *)
Fixpoint afterLastLF (s : list ascii) : option (list ascii) :=
  match s with
  | c :: s' =>
      if JS.isSpace c then
        match afterLastLF s' with
        | Some rest => Some rest
        | None => if Ascii.eqb c LF then Some s' else None
        end
      else None
  | [] => None
  end.

(** What [briefRe] does at one start of the input: the captured text,
    when there is a match. *)
Definition briefAt (s : list ascii) : option (list ascii) :=
  match matchLit true (list_ascii_of_string "##") s with
  | Some s1 =>
      match matchLit true (list_ascii_of_string "Agent Brief")
                     (skip JS.isSpace s1) with
      | Some s2 => option_map briefText (afterLastLF s2)
      | None => None
      end
  | None => None
  end.

(** The first start, from the left, at which [f] gives a result. *)
Fixpoint firstAt {X} (f : list ascii -> option X) (s : list ascii)
  : option X :=
  match f s with
  | Some x => Some x
  | None =>
      match s with
      | [] => None
      | _ :: s' => firstAt f s'
      end
  end.

(** ** Agent brief, in the words of the specification *)

Definition startsHeading (s : list ascii) : bool :=
  match s with
  | c1 :: c2 :: _ => Ascii.eqb c1 "#" && Ascii.eqb c2 "#"
  | _ => false
  end.

(** The text of a section: from the start of a line up to the next
    heading, a line that begins with [##], or to the end of the body. *)
Fixpoint sectionText (lineStart : bool) (s : list ascii) : list ascii :=
  match s with
  | [] => []
  | c :: s' =>
      if lineStart && startsHeading s then []
      else c :: sectionText (Ascii.eqb c LF) s'
  end.

(** The end of a line that holds nothing more but white space: what
    follows its line feed. *)
Definition afterFirstLF (s : list ascii) : option (list ascii) :=
  match skip (fun c => JS.isSpace c && negb (Ascii.eqb c LF)) s with
  | c :: rest => if Ascii.eqb c LF then Some rest else None
  | [] => None
  end.

(** An Agent Brief heading line at the front of the input: what follows
    the line. *)
Definition headingLineAt (s : list ascii) : option (list ascii) :=
  match matchLit true (list_ascii_of_string "##") s with
  | Some s1 =>
      match matchLit true (list_ascii_of_string "Agent Brief")
                     (skip JS.isSpace s1) with
      | Some s2 => afterFirstLF s2
      | None => None
      end
  | None => None
  end.

Fixpoint firstHeading (s : list ascii) : option (list ascii) :=
  match headingLineAt s with
  | Some rest => Some rest
  | None =>
      match s with
      | [] => None
      | _ :: s' => firstHeading s'
      end
  end.

(** [hasAgentBrief] as the specification states it: there is an Agent
    Brief heading, and the text of its section, trimmed, has at least 10
    characters. *)
Definition statedHasAgentBrief (body : string) : bool :=
  match firstHeading (list_ascii_of_string body) with
  | Some rest => (10 <=? length (JS.trim (sectionText true rest)))%nat
  | None => false
  end.

(** White space that is empty or ends a line. *)
Definition endsLine (ws : list ascii) : Prop :=
  ws = [] \/ exists ws' : list ascii, ws = ws' ++ [LF].

Definition bodyIssue (body : string) : GitHubIssue :=
  Issue.mk 1 "t" "https://github.com/o/r/issues/1" (Some body) []
           "2026-01-01T00:00:00Z" None.

(** ** Further vocabulary: cache uses and fetch outcomes *)

(** A use of the cache that reads or writes [key]. *)
Definition touches {A} (key : string) (op : CacheOp A) : bool :=
  match op with
  | Get k => String.eqb k key
  | Put k _ => String.eqb k key
  end.

(** What [fetchGitHubQueue] makes of the outcome of its [fetch]. *)
Definition outcomeResult (o : FetchResult) : Exn + list WorkQueueCard :=
  match o with
  | Rejected e => inl e
  | Responded response =>
      if negb (ok response) then
        match text response with
        | inl e => inl e
        | inr errorText =>
            if ((status response =? 403) || (status response =? 429))%Z
            then inl (rateLimitError (rateLimitReset response))
            else inl (Error ("GitHub API error: "
                             +:+ JS.showZ (status response)))
        end
      else
        match items response with
        | inl e => inl e
        | inr raw => inr (map normalizeGitHubIssue raw)
        end
  end.

(** The world after one more outbound request. *)
Definition sent {A} (rq : OutboundRequest) (w : World A) : World A :=
  {| cache := cache w; clock := clock w; reads := reads w;
     outbound := rq :: outbound w; provider := provider w |}.

Definition notFoundResponse : HttpResponse :=
  {| status := 404; rateLimitReset := None; text := inr "Not Found";
     items := inr [] |}.

Definition resetResponse : HttpResponse :=
  {| status := 403; rateLimitReset := Some "1700000000";
     text := inr "API rate limit exceeded"; items := inr [] |}.

(** A rate-limit answer whose body breaks off while it is read. *)
Definition brokenResponse : HttpResponse :=
  {| status := 429; rateLimitReset := Some "1700000000";
     text := inl (TypeError "terminated");
     items := inl (TypeError "terminated") |}.

(** A provider that does not look at the headers of a request. *)
Definition headerBlind (p : nat -> OutboundRequest -> FetchResult) : Prop :=
  forall (n : nat) (url : string) (h1 h2 : list (string * string)),
    p n {| req_url := url; req_headers := h1 |}
    = p n {| req_url := url; req_headers := h2 |}.
(* ====================================================================== *)
(** * The password gate ([api/auth/login/route.ts], [middleware.ts])       *)
(* ====================================================================== *)

(** A parsed JSON value.  A number is kept as its text; the members of an
    object are in the order of the text. *)
#[warnings="-register-all"]
Inductive Json : Type :=
| JNull
| JBool (b : bool)
| JNumber (text : string)
| JString (s : string)
| JArray (elements : list Json)
| JObject (members : list (string * Json)).

(** [value[name]] for a parsed JSON value and a name that no prototype
    defines: the member of an object, the last one when the name occurs
    more than once, and [undefined] ([None]) on everything else. *)
Definition jsonProperty (value : Json) (name : string) : option Json :=
  match value with
  | JObject members =>
      option_map snd
        (List.find (fun m => String.eqb (fst m) name) (rev members))
  | _ => None
  end.

(** [process.env] *)
Abbreviation Env := (gmap string string).

Record Cookie : Type := {
  cookie_name : string;
  cookie_value : string;
  httpOnly : bool;
  secure : bool;
  sameSite : string;
  maxAge : Z;
  cookie_path : string
}.

Inductive LoginBody : Type :=
| LoginError (error : string)          (** [{error}] *)
| LoginSuccess.                        (** [{success: true}] *)

Record LoginResponse : Type := {
  login_status : Z;
  login_body : LoginBody;
  login_cookie : option Cookie
}.

Definition loginError (status : Z) (error : string) : LoginResponse :=
  {| login_status := status; login_body := LoginError error;
     login_cookie := None |}.

(** The login handler.  The two login routes of the repository differ in
    the name of the environment variable and of the cookie, and in what
    they log; [requestJson] is what [request.json()] gives, an exception
    when the body is not JSON.  Destructuring [null] throws, and the
    [catch] answers every exception alike. *)
Definition loginPOST (passwordVar cookieName : string) (env : Env)
  (requestJson : Exn + Json) : LoginResponse :=
  match requestJson with
  | inl _ => loginError 500 "Authentication failed"
  | inr JNull => loginError 500 "Authentication failed"
  | inr value =>
      let password := jsonProperty value "password" in
      let correctPassword := env !! passwordVar in
      if negb (truthy correctPassword) then
        loginError 500 "Authentication not configured"
      else
        match password, correctPassword with
        | Some (JString given), Some correct =>
            if String.eqb given correct then
              {| login_status := 200; login_body := LoginSuccess;
                 login_cookie :=
                   Some {| cookie_name := cookieName;
                           cookie_value := "authenticated";
                           httpOnly := true;
                           secure :=
                             match env !! "NODE_ENV" with
                             | Some mode => String.eqb mode "production"
                             | None => false
                             end;
                           sameSite := "lax";
                           maxAge := 60 * 60 * 24 * 7;
                           cookie_path := "/" |} |}
            else loginError 401 "Invalid password"
        | _, _ => loginError 401 "Invalid password"
        end
  end.

(** [POST] of [src/app/api/auth/login/route.ts]. *)
Definition POST : Env -> Exn + Json -> LoginResponse :=
  loginPOST "CORE_ACCESS_PASSWORD" "dfg-core-auth".

(** [POST] of the Command Center login route. *)
Definition POST_commandCenter : Env -> Exn + Json -> LoginResponse :=
  loginPOST "COMMAND_CENTER_PASSWORD" "crane-command-auth".

(** A request as the middleware reads it: the path and the cookies that
    came with it. *)
Record PageRequest : Type := {
  pathname : string;
  cookies : gmap string string
}.

(** [NextResponse.next()] or a redirect to a path of the same origin. *)
Inductive Routing : Type :=
| Next
| Redirect (path : string).

Definition middleware (request : PageRequest) : Routing :=
  if String.eqb (pathname request) "/login"
     || String.eqb (pathname request) "/api/auth/login"
  then Next
  else
    match cookies request !! "dfg-core-auth" with
    | Some value =>
        if String.eqb value "authenticated" then Next
        else Redirect "/login"
    | None => Redirect "/login"
    end.

(** The request a browser makes for [path] with a cookie it was given. *)
Definition carrying (c : Cookie) (path : string) (others : gmap string string)
  : PageRequest :=
  {| pathname := path;
     cookies := <[cookie_name c := cookie_value c]> others |}.

(* ====================================================================== *)
(** * Properties                                                           *)
(* ====================================================================== *)

(** ** The JavaScript primitives, on examples *)

Example parseInt_examples :
  JS.parseInt "1700000000" = Some 1700000000%Z /\
  JS.parseInt "  42px" = Some 42%Z /\
  JS.parseInt "-0x1F" = Some (-31)%Z /\
  JS.parseInt "0x" = None /\
  JS.parseInt "" = None /\
  JS.parseInt "soon" = None.
Proof. repeat split. Qed.

Example toISOString_examples :
  JS.toISOString (JS.newDate (Some 0%Z)) = Some "1970-01-01T00:00:00.000Z" /\
  JS.toISOString (JS.newDate (Some (-1)%Z))
  = Some "1969-12-31T23:59:59.999Z" /\
  JS.toISOString (JS.newDate (Some 951782400000%Z))
  = Some "2000-02-29T00:00:00.000Z" /\
  JS.toISOString (JS.newDate (Some 1700000000000%Z))
  = Some "2023-11-14T22:13:20.000Z" /\
  JS.toISOString (JS.newDate (Some 8640000000000000%Z))
  = Some "+275760-09-13T00:00:00.000Z" /\
  JS.toISOString (JS.newDate (Some (-8640000000000000)%Z))
  = Some "-271821-04-20T00:00:00.000Z" /\
  JS.toISOString (JS.newDate (Some 8640000000000001%Z)) = None /\
  JS.toISOString (JS.newDate None) = None.
Proof. repeat split. Qed.

Example string_examples :
  JS.replaceFirst "qa-grade:" "" "qa-grade:B+" = "B+" /\
  JS.replaceFirst "b" "x" "abcabc" = "axcabc" /\
  JS.startsWith "status:ready" "status:" = true /\
  JS.startsWith "Status:ready" "status:" = false /\
  JS.trim (list_ascii_of_string "  a b  ") = list_ascii_of_string "a b" /\
  JS.showZ 404 = "404" /\
  JS.join ", " ["a"; "b"; "c"] = "a, b, c".
Proof. repeat split. Qed.

(** ** Response cache *)

Section CacheFacts.

Context {A : Type}.
Implicit Types (w : World A) (key : string) (e : CacheEntry A).

Lemma setCacheMap_same w : setCacheMap (cache w) w = w.
Proof. by destruct w. Qed.

Lemma getCached_absent key w :
  cache w !! key = None -> getCached key w = (None, w).
Proof.
  intros Hk. unfold getCached. rewrite Hk. cbn.
  by rewrite delete_id, setCacheMap_same.
Qed.

Lemma getCached_fresh key w e :
  cache w !! key = Some e ->
  (now w - timestamp e < CACHE_TTL)%Z ->
  getCached key w = (Some (data e), tick w).
Proof.
  intros Hk Hlt. unfold getCached. rewrite Hk. cbn.
  apply Z.ltb_lt in Hlt. unfold now in Hlt. by rewrite Hlt.
Qed.

Lemma getCached_expired key w e :
  cache w !! key = Some e ->
  (CACHE_TTL <= now w - timestamp e)%Z ->
  getCached key w
  = (None, setCacheMap (delete key (cache w)) (tick w)).
Proof.
  intros Hk Hge. unfold getCached. rewrite Hk. cbn.
  apply Z.ltb_ge in Hge. unfold now in Hge. by rewrite Hge.
Qed.

Lemma setCache_eq key (d : A) w :
  setCache key d w
  = (tt, setCacheMap (<[key := {| data := d; timestamp := now w |}]>
                        (cache w)) (tick w)).
Proof. reflexivity. Qed.

(** What a read does to the entry of any key: it stays or it goes. *)
Lemma getCached_lookup key key' w :
  cache (snd (getCached key w)) !! key' = cache w !! key' \/
  cache (snd (getCached key w)) !! key' = None.
Proof.
  destruct (cache w !! key) as [e|] eqn:Hk.
  - destruct (Z.lt_ge_cases (now w - timestamp e) CACHE_TTL) as [Hlt|Hge].
    + rewrite (getCached_fresh _ _ _ Hk Hlt). by left.
    + rewrite (getCached_expired _ _ _ Hk Hge). cbn.
      destruct (decide (key = key')) as [->|Hne].
      * right. apply lookup_delete_eq.
      * left. by rewrite lookup_delete_ne.
  - rewrite (getCached_absent _ _ Hk). by left.
Qed.

Lemma getCached_miss_gone key w :
  fst (getCached key w) = None ->
  cache (snd (getCached key w)) !! key = None.
Proof.
  destruct (cache w !! key) as [e|] eqn:Hk.
  - destruct (Z.lt_ge_cases (now w - timestamp e) CACHE_TTL) as [Hlt|Hge].
    + by rewrite (getCached_fresh _ _ _ Hk Hlt).
    + rewrite (getCached_expired _ _ _ Hk Hge). intros _. cbn.
      apply lookup_delete_eq.
  - by rewrite (getCached_absent _ _ Hk).
Qed.

Lemma getCached_clock key w :
  clock (snd (getCached key w)) = clock w /\
  (reads w <= reads (snd (getCached key w)))%nat.
Proof.
  destruct (cache w !! key) as [e|] eqn:Hk.
  - destruct (Z.lt_ge_cases (now w - timestamp e) CACHE_TTL) as [Hlt|Hge].
    + rewrite (getCached_fresh _ _ _ Hk Hlt). cbn. split; [done|lia].
    + rewrite (getCached_expired _ _ _ Hk Hge). cbn. split; [done|lia].
  - rewrite (getCached_absent _ _ Hk). cbn. split; [done|lia].
Qed.

Lemma runOp_clock (op : CacheOp A) w :
  clock (runOp op w) = clock w /\ (reads w <= reads (runOp op w))%nat.
Proof.
  destruct op as [key|key d]; cbn -[getCached].
  - apply getCached_clock.
  - split; [done|lia].
Qed.

Lemma runOps_clock (ops : list (CacheOp A)) w :
  clock (runOps ops w) = clock w /\ (reads w <= reads (runOps ops w))%nat.
Proof.
  revert w. induction ops as [|op ops IH]; intros w; cbn -[runOp].
  - split; [done|lia].
  - destruct (IH (runOp op w)) as [Hc Hr].
    destruct (runOp_clock op w) as [Hc' Hr'].
    split; [congruence|lia].
Qed.

(** Without a write to [key], its entry is the old one or none. *)
Lemma runOps_lookup key (ops : list (CacheOp A)) w :
  noPut key ops ->
  cache (runOps ops w) !! key = cache w !! key \/
  cache (runOps ops w) !! key = None.
Proof.
  unfold noPut. revert w.
  induction ops as [|op ops IH]; intros w Hno; cbn -[runOp] in *.
  - by left.
  - apply andb_prop in Hno as [Hop Hno].
    assert (Hstep : cache (runOp op w) !! key = cache w !! key \/
                    cache (runOp op w) !! key = None).
    { destruct op as [k|k d]; cbn -[getCached] in *.
      - apply getCached_lookup.
      - left. apply negb_true_iff, String.eqb_neq in Hop.
        by rewrite lookup_insert_ne. }
    destruct (IH (runOp op w) Hno) as [H1|H1]; [|by right].
    rewrite H1. exact Hstep.
Qed.

(** Once the entry of [key] is gone, only a write to [key] brings one
    back. *)
Lemma runOps_gone key (ops : list (CacheOp A)) w :
  noPut key ops ->
  cache w !! key = None ->
  cache (runOps ops w) !! key = None.
Proof.
  intros Hno Hk. destruct (runOps_lookup key ops w Hno); congruence.
Qed.

(** With a clock that does not run backwards, an entry that is still
    fresh at the end was fresh at every read in between: it survives. *)
Lemma runOps_keeps key e (ops : list (CacheOp A)) w :
  noPut key ops ->
  monotone (clock w) ->
  cache w !! key = Some e ->
  (now (runOps ops w) - timestamp e < CACHE_TTL)%Z ->
  cache (runOps ops w) !! key = Some e.
Proof.
  unfold noPut. revert w.
  induction ops as [|op ops IH]; intros w Hno Hmono Hk Hlt;
    cbn -[runOp] in *; [done|].
  apply andb_prop in Hno as [Hop Hno].
  destruct (runOp_clock op w) as [Hc Hr].
  destruct (runOps_clock ops (runOp op w)) as [Hc' Hr'].
  apply IH; [done|by rewrite Hc| |done].
  assert (Hearly : (now w <= now (runOps ops (runOp op w)))%Z).
  { unfold now. rewrite Hc', Hc. apply Hmono. lia. }
  destruct op as [k|k d]; cbn -[getCached] in *.
  - destruct (decide (k = key)) as [->|Hne].
    + rewrite (getCached_fresh _ _ _ Hk) by lia. done.
    + destruct (cache w !! k) as [e'|] eqn:Hk'.
      * destruct (Z.lt_ge_cases (now w - timestamp e') CACHE_TTL)
          as [Hlt'|Hge'].
        -- by rewrite (getCached_fresh _ _ _ Hk' Hlt').
        -- rewrite (getCached_expired _ _ _ Hk' Hge'). cbn.
           by rewrite lookup_delete_ne.
      * by rewrite (getCached_absent _ _ Hk').
  - apply negb_true_iff, String.eqb_neq in Hop.
    by rewrite lookup_insert_ne.
Qed.

End CacheFacts.

(** C2 (response cache contract).  [setCache key v] stores [v] under [key]
    with the current clock reading, whatever was there before, and leaves
    the other keys alone.  After it, and after any further uses of the
    cache that do not write to [key]: a [getCached key] at which less than
    60000 ms have elapsed since the write returns [v] (the clock does not
    run backwards); a [getCached key] at which 60000 ms or more have
    elapsed returns no entry and leaves none behind, so that a later
    [getCached key], with no write to [key] in between, returns no entry
    either. *)
Theorem cache_contract {A : Type} (key : string) (v : A) (w : World A)
  (ops : list (CacheOp A)) :
  noPut key ops ->
  let w1 := snd (setCache key v w) in
  let w2 := runOps ops w1 in
  (cache w1 !! key = Some {| data := v; timestamp := now w |} /\
   forall key', key' <> key -> cache w1 !! key' = cache w !! key') /\
  (monotone (clock w) ->
   (now w2 - now w < CACHE_TTL)%Z ->
   getCached key w2 = (Some v, tick w2)) /\
  ((CACHE_TTL <= now w2 - now w)%Z ->
   fst (getCached key w2) = None /\
   cache (snd (getCached key w2)) !! key = None /\
   forall ops' : list (CacheOp A),
     noPut key ops' ->
     fst (getCached key (runOps ops' (snd (getCached key w2)))) = None).
Proof.
  intros Hno w1 w2.
  assert (Hw1 : cache w1 !! key
                = Some {| data := v; timestamp := now w |}).
  { subst w1. rewrite setCache_eq. cbn. apply lookup_insert_eq. }
  split; [split; [exact Hw1|]|split].
  - intros key' Hne. subst w1. rewrite setCache_eq. cbn.
    by rewrite lookup_insert_ne.
  - intros Hmono Hlt.
    assert (Hkeep : cache w2 !! key
                    = Some {| data := v; timestamp := now w |}).
    { subst w2. apply runOps_keeps; [done| |done|done].
      subst w1. by rewrite setCache_eq. }
    by rewrite (getCached_fresh _ _ _ Hkeep Hlt).
  - intros Hge.
    assert (Hmiss : fst (getCached key w2) = None).
    { destruct (runOps_lookup key ops w1 Hno) as [Hsame|Hgone];
        fold w2 in Hsame || fold w2 in Hgone.
      - rewrite Hw1 in Hsame.
        by rewrite (getCached_expired _ _ _ Hsame Hge).
      - by rewrite (getCached_absent _ _ Hgone). }
    pose proof (getCached_miss_gone _ _ Hmiss) as Hgone.
    split; [done|split; [done|]].
    intros ops' Hno'.
    by rewrite (getCached_absent _ _ (runOps_gone _ _ _ Hno' Hgone)).
Qed.

(** A run of the contract: a write at 0 ms, a read of another key and a
    write to another key, then a read of the key at 59999 ms and, on
    another clock, at 60000 ms. *)
Lemma cache_contract_witness :
  noPut "k" [Get "j"; Put "j" 7%nat] /\
  getCached "k"
    (runOps [Get "j"; Put "j" 7%nat]
       (snd (setCache "k" 5%nat
               (exampleWorld (fun n => 59999 * Z.of_nat (n / 2))%Z))))
  = (Some 5%nat,
     tick (runOps [Get "j"; Put "j" 7%nat]
             (snd (setCache "k" 5%nat
                     (exampleWorld (fun n => 59999 * Z.of_nat (n / 2))%Z))))) /\
  fst (getCached "k"
         (runOps [Get "j"; Put "j" 7%nat]
            (snd (setCache "k" 5%nat
                    (exampleWorld (fun n => 30000 * Z.of_nat n)%Z)))))
  = None.
Proof.
  split; [reflexivity|].
  destruct (cache_contract "k" 5%nat
              (exampleWorld (fun n => 59999 * Z.of_nat (n / 2))%Z)
              [Get "j"; Put "j" 7%nat] eq_refl) as [_ [Hfresh _]].
  destruct (cache_contract "k" 5%nat
              (exampleWorld (fun n => 30000 * Z.of_nat n)%Z)
              [Get "j"; Put "j" 7%nat] eq_refl) as [_ [_ Hexpired]].
  split.
  - apply Hfresh; [|vm_compute; reflexivity].
    intros i j Hij.
    change (59999 * Z.of_nat (i / 2) <= 59999 * Z.of_nat (j / 2))%Z.
    apply Z.mul_le_mono_nonneg_l; [lia|].
    apply Nat2Z.inj_le, Nat.Div0.div_le_mono, Hij.
  - apply Hexpired. vm_compute. discriminate.
Defined.

(** ** Query builder *)

Lemma encodeQuery_app (a b : string) :
  encodeQuery (a +:+ b) = encodeQuery a +:+ encodeQuery b.
Proof.
  unfold encodeQuery. induction a as [|c a IH]; [done|].
  change (String c a +:+ b) with (String c (a +:+ b)).
  cbn [JS.replaceAllChar]. rewrite IH.
  destruct (Ascii.eqb c _); reflexivity.
Qed.

(** A string without a double quote is sent as it is: [+], [:] and every
    other character stay literal. *)
Lemma encodeQuery_literal (s : string) :
  (forall c, In c (list_ascii_of_string s) -> c <> ascii_of_N 34) ->
  encodeQuery s = s.
Proof.
  unfold encodeQuery. induction s as [|c s IH]; [done|].
  intros Hno. cbn [JS.replaceAllChar].
  rewrite IH by (intros d Hd; apply Hno; by right).
  destruct (Ascii.eqb_spec c (ascii_of_N 34)) as [->|_]; [|done].
  exfalso. eapply Hno; [left; reflexivity|reflexivity].
Qed.

Lemma validQueues_names : validQueues = map queueName allQueues.
Proof. reflexivity. Qed.

Lemma includes_validQueues (queue : string) :
  JS.includes validQueues queue = true <-> exists q, queue = queueName q.
Proof.
  unfold JS.includes. rewrite existsb_exists. split.
  - intros [x [Hin Heq]]. apply String.eqb_eq in Heq. subst x.
    cbn in Hin.
    destruct Hin as [<-|[<-|[<-|[<-|[<-|[]]]]]];
      [by exists NeedsQa|by exists NeedsPm|by exists DevQueue
      |by exists ReadyToMerge|by exists InFlight].
  - intros [q ->]. exists (queueName q). split; [|apply String.eqb_refl].
    destruct q; cbn; tauto.
Qed.

(** Whatever the provider answers, a queue fetch for a known queue adds
    exactly one outbound request and touches nothing else. *)
Lemma fetchGitHubQueue_world {A} (queue token query : string)
  (w : World A) :
  getQueryForQueue queue = inr query ->
  snd (fetchGitHubQueue queue token w)
  = snd (fetch (searchUrl (encodeQuery query)) (searchHeaders token) w).
Proof.
  intros Hq. unfold fetchGitHubQueue. rewrite Hq. unfold bind.
  destruct (fetch _ _ w) as [[r|e] w'] eqn:Hf; cbn; [|done].
  destruct (negb (ok r)).
  - destruct (text r); [done|]. by destruct (_ || _).
  - by destruct (items r).
Qed.

(** C3 (query per queue).  For each of the five queues the query is the
    fixed repository scope and open-state filter followed by one
    [+label:"..."] filter per label of the queue, and the URL that is
    fetched carries it with every double quote as [%22] and everything
    else, [+] and [:] included, as it is. *)
Theorem query_for_queue (q : QueueType) (token : string)
  (w : World CachedQueue) :
  getQueryForQueue (queueName q)
  = inr (queryScope
         +:+ String.concat ""
               (map (fun l => "+label:" +:+ dq +:+ l +:+ dq)
                    (queueLabels q))) /\
  outbound (snd (fetchGitHubQueue (queueName q) token w))
  = {| req_url :=
         "https://api.github.com/search/issues?q="
         +:+ (queryScope
              +:+ String.concat ""
                    (map (fun l => "+label:%22" +:+ l +:+ "%22")
                         (queueLabels q)))
         +:+ "&sort=updated&order=desc&per_page=50";
       req_headers := searchHeaders token |}
    :: outbound w.
Proof.
  assert (Hq : getQueryForQueue (queueName q)
               = inr (queryScope
                      +:+ String.concat ""
                            (map (fun l => "+label:" +:+ dq +:+ l +:+ dq)
                                 (queueLabels q)))).
  { by destruct q. }
  split; [exact Hq|].
  rewrite (fetchGitHubQueue_world _ _ _ _ Hq). by destruct q.
Qed.

(** ** Request validation *)

(** C10 (credential check comes first).  Without a configured token (unset
    or empty) the handler answers 401 [CONFIG_ERROR] whatever the request
    is, also when its queue parameter is missing or invalid; it changes
    nothing: no outbound request, no cache access. *)
Theorem GET_without_token (token : option string) (request : Request)
  (w : World CachedQueue) :
  truthy token = false ->
  GET token request w
  = (errorResponse 401 "CONFIG_ERROR" "GitHub token not configured", w).
Proof. intros Hno. unfold GET. by rewrite Hno. Qed.

Lemma GET_without_token_witness :
  truthy None = false /\
  GET None {| searchParams := [("queue", "bogus")] |}
      (exampleWorld (fun _ => 0%Z))
  = (errorResponse 401 "CONFIG_ERROR" "GitHub token not configured",
     exampleWorld (fun _ => 0%Z)).
Proof.
  split; [reflexivity|].
  apply (GET_without_token None {| searchParams := [("queue", "bogus")] |}
           (exampleWorld (fun _ => 0%Z))).
  reflexivity.
Defined.

(** C8 as stated fails at two inputs: a request without a queue and
    without a configured token is answered 401, not 400; and a request
    whose queue parameter is the empty string, a value outside the five
    queues, is answered [MISSING_PARAMETER], not [INVALID_PARAMETER]. *)
Lemma GET_bad_queue_counterexample :
  (searchParams_get {| searchParams := [] |} "queue" = None /\
   resp_status
     (fst (GET None {| searchParams := [] |} (exampleWorld (fun _ => 0%Z))))
   <> 400%Z) /\
  (searchParams_get {| searchParams := [("queue", "")] |} "queue" = Some "" /\
   (forall q, "" <> queueName q) /\
   resp_body
     (fst (GET (Some "token") {| searchParams := [("queue", "")] |}
               (exampleWorld (fun _ => 0%Z))))
   = ErrorBody "MISSING_PARAMETER" "Queue parameter is required").
Proof.
  split; [split; [reflexivity|discriminate]|].
  split; [reflexivity|split; [by intros []|reflexivity]].
Qed.

(** C8 (amended).  With a configured token: a request whose queue
    parameter is absent or empty is answered 400 [MISSING_PARAMETER]; a
    request whose queue parameter is not empty and not one of the five
    queues is answered 400 [INVALID_PARAMETER] with a message that lists
    the five; in both cases the world is left as it was: no outbound
    request is made. *)
Theorem GET_bad_queue (token : string) (request : Request)
  (w : World CachedQueue) :
  token <> "" ->
  (truthy (searchParams_get request "queue") = false ->
   GET (Some token) request w
   = (errorResponse 400 "MISSING_PARAMETER" "Queue parameter is required",
      w)) /\
  (forall queue,
     searchParams_get request "queue" = Some queue ->
     queue <> "" ->
     (forall q, queue <> queueName q) ->
     GET (Some token) request w
     = (errorResponse 400 "INVALID_PARAMETER"
          ("Invalid queue type. Must be one of: "
           +:+ JS.join ", " (map queueName allQueues)), w)).
Proof.
  intros Htok.
  assert (Ht : truthy (Some token) = true) by (by destruct token).
  split.
  - intros Hq. unfold GET. by rewrite Ht, Hq.
  - intros queue Hq Hne Hout. unfold GET. rewrite Ht, Hq.
    assert (Hq' : truthy (Some queue) = true) by (by destruct queue).
    rewrite Hq'.
    destruct (JS.includes validQueues (default "" (Some queue))) eqn:Hin.
    + apply includes_validQueues in Hin as [q Hin]. by destruct (Hout q).
    + reflexivity.
Qed.

Lemma GET_bad_queue_witness :
  "token" <> "" /\
  GET (Some "token") {| searchParams := [("page", "2")] |}
      (exampleWorld (fun _ => 0%Z))
  = (errorResponse 400 "MISSING_PARAMETER" "Queue parameter is required",
     exampleWorld (fun _ => 0%Z)) /\
  GET (Some "token") {| searchParams := [("queue", "bogus")] |}
      (exampleWorld (fun _ => 0%Z))
  = (errorResponse 400 "INVALID_PARAMETER"
       "Invalid queue type. Must be one of: needs-qa, needs-pm, dev-queue, ready-to-merge, in-flight",
     exampleWorld (fun _ => 0%Z)).
Proof.
  assert (Htok : "token" <> "") by discriminate.
  split; [exact Htok|split].
  - apply (proj1 (GET_bad_queue "token"
                      {| searchParams := [("page", "2")] |}
                      (exampleWorld (fun _ => 0%Z)) Htok)).
    reflexivity.
  - apply (proj2 (GET_bad_queue "token"
                      {| searchParams := [("queue", "bogus")] |}
                      (exampleWorld (fun _ => 0%Z)) Htok) "bogus").
    + reflexivity.
    + discriminate.
    + intros q. destruct q; discriminate.
Defined.

(** ** Label derivation *)

Lemma append_cons (c : ascii) (a b : string) :
  String c a +:+ b = String c (a +:+ b).
Proof. reflexivity. Qed.

(** [startsWith] is an exact, code unit by code unit, comparison. *)
Lemma prefix_spec (p s : string) :
  String.prefix p s = true <-> exists r, s = p +:+ r.
Proof.
  revert s. induction p as [|c p IH]; intros s.
  - split; [by exists s|by destruct s].
  - destruct s as [|d s]; cbn; [split; [done|by intros [r Hr]]|].
    destruct (ascii_dec c d) as [->|Hne].
    + rewrite IH.
      split; intros [r Hr]; exists r; rewrite append_cons in *; congruence.
    + split; [done|]. intros [r Hr]. rewrite append_cons in Hr. congruence.
Qed.

Lemma dropS_app (p r : string) : JS.dropS (String.length p) (p +:+ r) = r.
Proof. induction p as [|c p IH]; [by destruct r|exact IH]. Qed.

(** On a string that starts with the pattern, replacing the first
    occurrence by the empty string strips the prefix. *)
Lemma replaceFirst_hit (pat rep s : string) :
  String.prefix pat s = true ->
  JS.replaceFirst pat rep s = rep +:+ JS.dropS (String.length pat) s.
Proof. intros Hp. destruct s; cbn [JS.replaceFirst]; by rewrite Hp. Qed.

Lemma replaceFirst_prefix (p r : string) :
  JS.replaceFirst p "" (p +:+ r) = r.
Proof.
  rewrite replaceFirst_hit by (apply prefix_spec; by exists r).
  by rewrite dropS_app.
Qed.

Lemma labels_rebuilt (ls : list GitHubLabel) :
  map (fun l => Label.mk (Label.name l) (Label.color l)
                         (Label.description l)) ls = ls.
Proof. induction ls as [|[n c d] ls IH]; cbn; [done|by rewrite IH]. Qed.

Lemma filter_names (P : string -> bool) (ls : list GitHubLabel) :
  map Label.name (List.filter (fun l => P (Label.name l)) ls)
  = List.filter P (map Label.name ls).
Proof.
  induction ls as [|l ls IH]; cbn; [done|].
  destruct (P (Label.name l)); cbn; by rewrite IH.
Qed.

Lemma find_names (P : string -> bool) (ls : list GitHubLabel) :
  option_map Label.name (List.find (fun l => P (Label.name l)) ls)
  = List.find P (map Label.name ls).
Proof.
  induction ls as [|l ls IH]; cbn; [done|].
  by destruct (P (Label.name l)).
Qed.

(** [find] returns the first element, from the left, that passes. *)
Lemma find_first {X} (P : X -> bool) (xs : list X) (x : X) :
  List.find P xs = Some x <->
  exists before after : list X,
    xs = (before ++ x :: after)%list /\ P x = true /\
    Forall (fun y => P y = false) before.
Proof.
  induction xs as [|y xs IH]; cbn.
  - split; [done|]. intros (before & after & Heq & _). by destruct before.
  - destruct (P y) eqn:Hy.
    + split.
      * intros [= ->]. by exists [], xs.
      * intros (before & after & Heq & Hx & Hb).
        destruct before as [|b before]; cbn in Heq.
        -- congruence.
        -- injection Heq as -> _. apply Forall_cons in Hb as [Hb _].
           congruence.
    + rewrite IH. split.
      * intros (before & after & -> & Hx & Hb).
        exists (y :: before), after. by repeat split; [|constructor].
      * intros (before & after & Heq & Hx & Hb).
        destruct before as [|b before]; cbn in Heq.
        -- congruence.
        -- injection Heq as -> ->. apply Forall_cons in Hb as [_ Hb].
           by exists before, after.
Qed.

Lemma find_none {X} (P : X -> bool) (xs : list X) :
  List.find P xs = None <-> Forall (fun y => P y = false) xs.
Proof.
  induction xs as [|y xs IH]; cbn; [by split|].
  destruct (P y) eqn:Hy.
  - split; [done|]. intros [H _]%Forall_cons. congruence.
  - rewrite IH. split; [by constructor|by intros [_ H]%Forall_cons].
Qed.

(** The three label-derived fields, over the label names of the item. *)
Lemma normalize_labels (issue : GitHubIssue) :
  let names := map Label.name (Issue.labels issue) in
  Card.statusLabels (normalizeGitHubIssue issue)
  = List.filter (String.prefix "status:") names /\
  Card.needsLabels (normalizeGitHubIssue issue)
  = List.filter (String.prefix "needs:") names /\
  Card.qaGrade (normalizeGitHubIssue issue)
  = option_map (JS.replaceFirst "qa-grade:" "")
               (List.find (String.prefix "qa-grade:") names).
Proof.
  cbn [normalizeGitHubIssue Card.statusLabels Card.needsLabels Card.qaGrade].
  rewrite labels_rebuilt. unfold JS.startsWith.
  rewrite !filter_names, <- find_names.
  repeat split. by destruct (List.find _ _).
Qed.

Lemma qaGrade_some (issue : GitHubIssue) (grade : string) :
  Card.qaGrade (normalizeGitHubIssue issue) = Some grade <->
  exists before after : list string,
    map Label.name (Issue.labels issue)
    = before ++ ("qa-grade:" +:+ grade) :: after /\
    Forall (fun n => String.prefix "qa-grade:" n = false) before.
Proof.
  destruct (normalize_labels issue) as (_ & _ & ->).
  set (names := map Label.name (Issue.labels issue)). split.
  - destruct (List.find _ names) as [n|] eqn:Hf; [|done].
    intros [= <-].
    apply find_first in Hf as (before & after & Heq & Hp & Hb).
    apply prefix_spec in Hp as [r ->].
    exists before, after. by rewrite replaceFirst_prefix.
  - intros (before & after & Heq & Hb).
    assert (Hf : List.find (String.prefix "qa-grade:") names
                 = Some ("qa-grade:" +:+ grade)).
    { apply find_first. exists before, after.
      split; [done|split; [|done]]. apply prefix_spec. by exists grade. }
    rewrite Hf. cbn [option_map]. by rewrite replaceFirst_prefix.
Qed.

Lemma qaGrade_none (issue : GitHubIssue) :
  Card.qaGrade (normalizeGitHubIssue issue) = None <->
  Forall (fun n => String.prefix "qa-grade:" n = false)
         (map Label.name (Issue.labels issue)).
Proof.
  destruct (normalize_labels issue) as (_ & _ & ->).
  rewrite <- find_none. by destruct (List.find _ _).
Qed.

(** C4 (label derivation).  [statusLabels] and [needsLabels] are the label
    names that start with [status:] and with [needs:], as they are and in
    the order of the source; [qaGrade] is what follows [qa-grade:] in the
    first label name that starts with it, and it is absent exactly when no
    label name starts with it.  The prefix test is exact: a name passes
    when it is the prefix followed by something. *)
Theorem label_derivation (issue : GitHubIssue) :
  let card := normalizeGitHubIssue issue in
  let names := map Label.name (Issue.labels issue) in
  (forall p s, String.prefix p s = true <-> exists r, s = p +:+ r) /\
  Card.statusLabels card = List.filter (String.prefix "status:") names /\
  Card.needsLabels card = List.filter (String.prefix "needs:") names /\
  (forall grade,
     Card.qaGrade card = Some grade <->
     exists before after : list string,
       names = before ++ ("qa-grade:" +:+ grade) :: after /\
       Forall (fun n => String.prefix "qa-grade:" n = false) before) /\
  (Card.qaGrade card = None <->
   Forall (fun n => String.prefix "qa-grade:" n = false) names).
Proof.
  intros card names.
  destruct (normalize_labels issue) as (Hs & Hn & _).
  split; [exact prefix_spec|]. split; [exact Hs|]. split; [exact Hn|].
  split; [intros grade; apply qaGrade_some|apply qaGrade_none].
Qed.

(** The example of the specification, and the case sensitivity of the
    prefixes. *)
Example label_derivation_example :
  let card :=
    normalizeGitHubIssue
      (Issue.mk 12 "title" "https://github.com/o/r/issues/12" None
         [Label.mk "status:ready" "0e8a16" None;
          Label.mk "needs:dev" "d93f0b" None;
          Label.mk "Status:blocked" "000000" None;
          Label.mk "qa-grade:A" "fbca04" None;
          Label.mk "qa-grade:B" "fbca04" None]
         "2026-01-01T00:00:00Z" None) in
  Card.statusLabels card = ["status:ready"] /\
  Card.needsLabels card = ["needs:dev"] /\
  Card.qaGrade card = Some "A".
Proof. repeat split. Qed.

(** ** The matcher on the patterns of the route *)

Section MatcherFacts.

Variable icase : bool.
Implicit Types (s : list ascii) (cap : Capture) (k : Cont).

Lemma run_str (p : string) s cap k :
  run icase (str p) s cap k
  = match matchLit icase (list_ascii_of_string p) s with
    | Some s' => k s' cap
    | None => None
    end.
Proof.
  revert s. induction p as [|c p IH]; intros s; [done|].
  destruct p as [|d r].
  - cbn. destruct s as [|e s]; [done|]. by destruct (sameChar icase c e).
  - change (str (String c (String d r)))
      with (Seq (Lit c) (str (String d r))).
    cbn [run list_ascii_of_string matchLit].
    destruct s as [|e s]; [done|].
    destruct (sameChar icase c e); [apply IH|done].
Qed.

Lemma starLoop_greedy_class negated items k fuel s cap :
  (length s <= fuel)%nat ->
  starLoop true (run icase (Class negated items)) k fuel s cap
  = greedyRun (inClass icase negated items) k s cap.
Proof.
  revert s. induction fuel as [|fuel IH]; intros s Hlen.
  - destruct s; [done|cbn in Hlen; lia].
  - cbn [starLoop run]. destruct s as [|c s]; [done|].
    cbn [greedyRun]. destruct (inClass icase negated items c); [|done].
    assert (Hlt : (length s <? length (c :: s))%nat = true)
      by (apply Nat.ltb_lt; cbn; lia).
    rewrite Hlt, IH by (cbn in Hlen; lia). done.
Qed.

Lemma run_star_greedy_class negated items s cap k :
  run icase (Star true (Class negated items)) s cap k
  = greedyRun (inClass icase negated items) k s cap.
Proof. cbn [run]. by apply starLoop_greedy_class. Qed.

Lemma starLoop_lazy_class negated items k fuel s cap :
  (length s <= fuel)%nat ->
  starLoop false (run icase (Class negated items)) k fuel s cap
  = lazyRun (inClass icase negated items) k s cap.
Proof.
  revert s. induction fuel as [|fuel IH]; intros s Hlen.
  - destruct s; [|cbn in Hlen; lia]. cbn. by destruct (k [] cap).
  - cbn [starLoop run]. destruct s as [|c s].
    + cbn. by destruct (k [] cap).
    + cbn [lazyRun]. destruct (k (c :: s) cap); [done|].
      destruct (inClass icase negated items c); [|done].
      assert (Hlt : (length s <? length (c :: s))%nat = true)
        by (apply Nat.ltb_lt; cbn; lia).
      rewrite Hlt, IH by (cbn in Hlen; lia). done.
Qed.

Lemma run_star_lazy_class negated items s cap k :
  run icase (Star false (Class negated items)) s cap k
  = lazyRun (inClass icase negated items) k s cap.
Proof. cbn [run]. by apply starLoop_lazy_class. Qed.

(** When the continuation refuses every input that starts with a
    character of the class, the greedy run is the longest one. *)
Lemma greedyRun_longest P k s cap :
  (forall c s', P c = true -> k (c :: s') cap = None) ->
  greedyRun P k s cap = k (skip P s) cap.
Proof.
  intros Hk. induction s as [|c s IH]; [done|].
  cbn [greedyRun skip]. destruct (P c) eqn:Hc; [|done].
  rewrite IH. destruct (k (skip P s) cap) eqn:Hs; [done|].
  by apply Hk.
Qed.

(** So it is when the continuation accepts every input. *)
Lemma greedyRun_accepting P k s cap :
  (forall s', k s' cap <> None) ->
  greedyRun P k s cap = k (skip P s) cap.
Proof.
  intros Hk. induction s as [|c s IH]; [done|].
  cbn [greedyRun skip]. destruct (P c) eqn:Hc; [|done].
  rewrite IH. destruct (k (skip P s) cap) eqn:Hs; [done|].
  by destruct (Hk (skip P s)).
Qed.

End MatcherFacts.

Lemma span_skip (P : ascii -> bool) (s : list ascii) :
  s = span P s ++ skip P s.
Proof.
  induction s as [|c s IH]; [done|]. cbn.
  destruct (P c); [|done]. cbn. by rewrite <- IH.
Qed.

Lemma span_all (P : ascii -> bool) (s : list ascii) :
  Forall (fun c => P c = true) (span P s).
Proof.
  induction s as [|c s IH]; cbn; [constructor|].
  destruct (P c) eqn:Hc; by constructor.
Qed.

Lemma skip_stops (P : ascii -> bool) (s : list ascii) :
  match skip P s with
  | c :: _ => P c = false
  | [] => True
  end.
Proof.
  induction s as [|c s IH]; cbn; [done|]. by destruct (P c) eqn:Hc.
Qed.

Lemma skip_app (P : ascii -> bool) (run rest : list ascii) :
  Forall (fun c => P c = true) run ->
  match rest with
  | c :: _ => P c = false
  | [] => True
  end ->
  skip P (run ++ rest) = rest /\ span P (run ++ rest) = run.
Proof.
  intros Hrun Hrest. induction Hrun as [|c run Hc _ IH]; cbn.
  - destruct rest as [|c rest]; [done|]. cbn. by rewrite Hrest.
  - rewrite Hc. destruct IH as [-> ->]. done.
Qed.

Lemma skip_length (P : ascii -> bool) (s : list ascii) :
  (length (skip P s) <= length s)%nat.
Proof.
  induction s as [|c s IH]; cbn; [done|].
  destruct (P c); cbn; lia.
Qed.

(** The leftmost start wins. *)
Lemma exec_first (icase : bool) (r : Regex) (s : list ascii) (c : Capture) :
  exec icase r s = Some c <->
  exists pre suf : list ascii,
    s = pre ++ suf /\ matchAt icase r suf = Some c /\
    forall pre' suf' : list ascii,
      s = pre' ++ suf' -> (length pre' < length pre)%nat ->
      matchAt icase r suf' = None.
Proof.
  induction s as [|a s IH].
  - cbn [exec]. destruct (matchAt icase r []) as [c'|] eqn:Hm.
    + split.
      * intros [= ->]. exists [], []. repeat split; [done|].
        intros pre' suf' _ Hlt. cbn in Hlt. lia.
      * intros (pre & suf & Heq & Hs & _).
        symmetry in Heq. apply app_eq_nil in Heq as [-> ->]. congruence.
    + split; [done|]. intros (pre & suf & Heq & Hs & _).
      symmetry in Heq. apply app_eq_nil in Heq as [-> ->]. congruence.
  - cbn [exec]. destruct (matchAt icase r (a :: s)) as [c'|] eqn:Hm.
    + split.
      * intros [= ->]. exists [], (a :: s). repeat split; [done|].
        intros pre' suf' _ Hlt. cbn in Hlt. lia.
      * intros (pre & suf & Heq & Hs & Hmin).
        destruct pre as [|b pre]; cbn in Heq; [congruence|].
        rewrite (Hmin [] (a :: s)) in Hm; [done|done|cbn; lia].
    + rewrite IH. split.
      * intros (pre & suf & -> & Hs & Hmin).
        exists (a :: pre), suf. repeat split; [done|].
        intros pre' suf' Heq Hlt.
        destruct pre' as [|b pre']; cbn in Heq; [by subst suf'|].
        injection Heq as -> Heq. apply (Hmin pre' suf' Heq).
        cbn in Hlt. lia.
      * intros (pre & suf & Heq & Hs & Hmin).
        destruct pre as [|b pre]; cbn in Heq; [congruence|].
        injection Heq as -> ->. exists pre, suf. repeat split; [done|].
        intros pre' suf' Heq Hlt.
        apply (Hmin (b :: pre') suf'); [by rewrite Heq|cbn; lia].
Qed.

Lemma exec_none (icase : bool) (r : Regex) (s : list ascii) :
  exec icase r s = None <->
  forall pre suf : list ascii, s = pre ++ suf -> matchAt icase r suf = None.
Proof.
  induction s as [|a s IH].
  - cbn [exec]. destruct (matchAt icase r []) as [c'|] eqn:Hm.
    + split; [done|]. intros H. by rewrite (H [] []) in Hm.
    + split; [|done]. intros _ pre suf Heq.
      symmetry in Heq. by apply app_eq_nil in Heq as [-> ->].
  - cbn [exec]. destruct (matchAt icase r (a :: s)) as [c'|] eqn:Hm.
    + split; [done|]. intros H. by rewrite (H [] (a :: s)) in Hm.
    + rewrite IH. split.
      * intros H pre suf Heq.
        destruct pre as [|b pre]; cbn in Heq; [by subst suf|].
        injection Heq as -> Heq. by apply (H pre).
      * intros H pre suf Heq. apply (H (a :: pre)). by rewrite Heq.
Qed.

(** ** [previewRe], part by part *)

Lemma previewRe_parts : previewRe = (kwRe ~> sepRe ~> tailRe)%re.
Proof. reflexivity. Qed.

Lemma skip_ext (P Q : ascii -> bool) (s : list ascii) :
  (forall c, P c = Q c) -> skip P s = skip Q s.
Proof.
  intros HPQ. induction s as [|c s IH]; [done|]. cbn.
  rewrite HPQ, IH. done.
Qed.

Lemma inClass_space (c : ascii) :
  inClass true false [CSpace] c = JS.isSpace c.
Proof. cbn. by destruct (JS.isSpace c). Qed.

Lemma inClass_urlChar (c : ascii) :
  inClass true true [CSpace; CChar ")"] c = urlChar c.
Proof. by destruct c as [[] [] [] [] [] [] [] []]. Qed.

(** A white-space character is none of the pattern characters. *)
Lemma space_not_lit (p c : ascii) :
  JS.isSpace p = false -> JS.isSpace (JS.canonicalize p) = false ->
  JS.isSpace c = true -> sameChar true p c = false.
Proof.
  intros Hp Hp' Hc. unfold sameChar.
  destruct (Ascii.eqb_spec (JS.canonicalize p) (JS.canonicalize c))
    as [Heq|]; [|done].
  assert (Hcc : JS.canonicalize c = c).
  { by destruct c as [[] [] [] [] [] [] [] []]. }
  congruence.
Qed.

(** One step of the matcher, for rewriting. *)
Lemma run_Seq icase r1 r2 s cap k :
  run icase (Seq r1 r2) s cap k
  = run icase r1 s cap (fun s' cap' => run icase r2 s' cap' k).
Proof. reflexivity. Qed.

Lemma run_Alt icase r1 r2 s cap k :
  run icase (Alt r1 r2) s cap k
  = match run icase r1 s cap k with
    | Some res => Some res
    | None => run icase r2 s cap k
    end.
Proof. reflexivity. Qed.

Lemma run_Opt icase r s cap k :
  run icase (Opt r) s cap k
  = match run icase r s cap k with
    | Some res => Some res
    | None => k s cap
    end.
Proof. reflexivity. Qed.

Lemma run_Lit icase p s cap k :
  run icase (Lit p) s cap k
  = match s with
    | c :: s' => if sameChar icase p c then k s' cap else None
    | [] => None
    end.
Proof. reflexivity. Qed.

Lemma run_Class icase negated items s cap k :
  run icase (Class negated items) s cap k
  = match s with
    | c :: s' => if inClass icase negated items c then k s' cap else None
    | [] => None
    end.
Proof. reflexivity. Qed.

Lemma run_Group icase r s cap k :
  run icase (Group r) s cap k
  = run icase r s cap
      (fun s' _ => k s' (Some (firstn (length s - length s') s))).
Proof. reflexivity. Qed.

Lemma run_Plus_class icase negated items s cap k :
  run icase (Plus (Class negated items)) s cap k
  = match s with
    | c :: s' =>
        if inClass icase negated items c
        then greedyRun (inClass icase negated items) k s' cap
        else None
    | [] => None
    end.
Proof.
  unfold Plus. rewrite run_Seq, run_Class. destruct s as [|c s']; [done|].
  by rewrite run_star_greedy_class.
Qed.

(** [:\/\/[^\s)]+] up to the end of the group that started at [s0]. *)
Lemma run_urlBody (s0 s2 : list ascii) (cap2 : Capture) :
  run true (str "://" ~> Plus (Class true [CSpace; CChar ")"]))%re s2 cap2
      (fun s' _ => Some (Some (firstn (length s0 - length s') s0)))
  = match matchLit true (list_ascii_of_string "://") s2 with
    | Some (c :: s3) =>
        if urlChar c
        then Some (Some (firstn (length s0 - length (skip urlChar s3)) s0))
        else None
    | _ => None
    end.
Proof.
  rewrite run_Seq, run_str.
  destruct (matchLit true _ s2) as [s3|]; [|done].
  rewrite run_Plus_class. destruct s3 as [|c s3]; [done|].
  rewrite inClass_urlChar. destruct (urlChar c); [|done].
  rewrite greedyRun_accepting by done.
  by rewrite (skip_ext _ urlChar) by apply inClass_urlChar.
Qed.

(** After an [s], of either case, no colon. *)
Lemma s_not_colon (c : ascii) :
  sameChar true "s" c = true -> sameChar true ":" c = false.
Proof. by destruct c as [[] [] [] [] [] [] [] []]. Qed.

Lemma run_urlRe (s : list ascii) (cap : Capture) :
  run true urlRe s cap (fun _ c => Some c)
  = option_map Some (previewUrlAt s).
Proof.
  unfold urlRe, previewUrlAt. rewrite run_Group, run_Seq, run_str.
  destruct (matchLit true _ s) as [s1|]; [|done].
  rewrite run_Seq, run_Opt, run_Lit.
  destruct s1 as [|c s1].
  - rewrite run_urlBody. reflexivity.
  - destruct (sameChar true "s" c) eqn:Hs.
    + rewrite !run_urlBody.
      assert (Hno : matchLit true (list_ascii_of_string "://") (c :: s1)
                    = None).
      { cbn [matchLit list_ascii_of_string]. by rewrite s_not_colon. }
      rewrite Hno.
      destruct (matchLit true _ s1) as [[|d s3]|]; [done| |done].
      by destruct (urlChar d).
    + rewrite run_urlBody.
      destruct (matchLit true _ (c :: s1)) as [[|d s3]|]; [done| |done].
      by destruct (urlChar d).
Qed.

Lemma matchLit_space (p : ascii) (ps s : list ascii) (c : ascii) :
  JS.isSpace p = false -> JS.isSpace (JS.canonicalize p) = false ->
  JS.isSpace c = true ->
  matchLit true (p :: ps) (c :: s) = None.
Proof.
  intros Hp Hp' Hc. cbn [matchLit]. by rewrite space_not_lit.
Qed.

Lemma previewUrlAt_space (c : ascii) (s : list ascii) :
  JS.isSpace c = true -> previewUrlAt (c :: s) = None.
Proof.
  intros Hc. unfold previewUrlAt.
  change (list_ascii_of_string "http")
    with ("h"%char :: list_ascii_of_string "ttp").
  by rewrite matchLit_space.
Qed.

Lemma previewTailAt_space (c : ascii) (s : list ascii) :
  JS.isSpace c = true -> previewTailAt (c :: s) = None.
Proof.
  intros Hc. unfold previewTailAt. by rewrite space_not_lit.
Qed.

Lemma run_tailRe (s : list ascii) (cap : Capture) :
  run true tailRe s cap (fun _ c => Some c)
  = option_map Some (previewTailAt s).
Proof.
  unfold tailRe, previewTailAt. rewrite run_Seq, run_Lit.
  destruct s as [|c s1]; [done|].
  destruct (sameChar true ":" c); [|done].
  unfold space. rewrite run_Seq, run_star_greedy_class.
  rewrite greedyRun_longest.
  - rewrite run_urlRe.
    by rewrite (skip_ext _ JS.isSpace) by apply inClass_space.
  - intros d s' Hd. rewrite inClass_space in Hd.
    by rewrite run_urlRe, previewUrlAt_space.
Qed.

Lemma run_sepRe_tailRe (s : list ascii) (cap : Capture) :
  run true (sepRe ~> tailRe)%re s cap (fun _ c => Some c)
  = option_map Some (previewSepAt s).
Proof.
  unfold sepRe, previewSepAt, space.
  rewrite run_Seq, run_Opt, run_Seq, run_Plus_class.
  destruct s as [|c s1]; [by rewrite run_tailRe|].
  rewrite inClass_space. destruct (JS.isSpace c) eqn:Hc.
  - rewrite greedyRun_longest.
    + rewrite run_str.
      rewrite (skip_ext _ JS.isSpace) by apply inClass_space.
      rewrite (run_tailRe (c :: s1)), previewTailAt_space by done.
      destruct (matchLit true _ (skip JS.isSpace s1)) as [s2|]; [|done].
      rewrite run_tailRe. by destruct (previewTailAt s2).
    + intros d s' Hd. rewrite inClass_space in Hd. rewrite run_str.
      change (list_ascii_of_string "url")
        with ("u"%char :: list_ascii_of_string "rl").
      by rewrite matchLit_space.
  - by rewrite run_tailRe.
Qed.

Lemma preview_not_deploy (s s1 : list ascii) :
  matchLit true (list_ascii_of_string "preview") s = Some s1 ->
  matchLit true (list_ascii_of_string "deploy") s = None.
Proof.
  destruct s as [|c s]; [done|]. cbn [matchLit list_ascii_of_string].
  destruct (sameChar true "p" c) eqn:Hp; [|done]. intros _.
  replace (sameChar true "d" c) with false; [done|].
  clear -Hp. by destruct c as [[] [] [] [] [] [] [] []].
Qed.

(** The matcher on [previewRe] does what [previewAt] says. *)
Lemma matchAt_previewRe (s : list ascii) :
  matchAt true previewRe s = option_map Some (previewAt s).
Proof.
  unfold matchAt, previewAt. rewrite previewRe_parts.
  unfold kwRe. rewrite run_Seq, run_Alt, !run_str.
  destruct (matchLit true (list_ascii_of_string "preview") s)
    as [s1|] eqn:Hp.
  - rewrite (preview_not_deploy _ _ Hp), run_sepRe_tailRe.
    by destruct (previewSepAt s1).
  - destruct (matchLit true (list_ascii_of_string "deploy") s) as [s1|];
      [|done].
    by rewrite run_sepRe_tailRe.
Qed.

(** ** The preview pattern, declaratively *)

Lemma sameChar_canon (p c : ascii) :
  sameChar true p c = true <-> JS.canonicalize p = JS.canonicalize c.
Proof. unfold sameChar. apply Ascii.eqb_eq. Qed.

Lemma matchLit_inv (p : string) (s s' : list ascii) :
  matchLit true (list_ascii_of_string p) s = Some s' ->
  exists m : list ascii, s = m ++ s' /\ ciEq m p.
Proof.
  unfold ciEq. revert s. induction p as [|c p IH]; intros s.
  - cbn. intros [= ->]. by exists [].
  - cbn [matchLit list_ascii_of_string]. destruct s as [|d s]; [done|].
    destruct (sameChar true c d) eqn:Hcd; [|done].
    intros (m & -> & Hm)%IH. exists (d :: m). split; [done|].
    apply sameChar_canon in Hcd. cbn. by rewrite Hm, Hcd.
Qed.

Lemma matchLit_app (p : string) (m s' : list ascii) :
  ciEq m p -> matchLit true (list_ascii_of_string p) (m ++ s') = Some s'.
Proof.
  unfold ciEq. revert m. induction p as [|c p IH]; intros m Hm.
  - by destruct m.
  - destruct m as [|d m]; [done|]. cbn in Hm. injection Hm as Hd Hm.
    cbn [matchLit list_ascii_of_string app].
    replace (sameChar true c d) with true
      by (symmetry; by apply sameChar_canon).
    by apply IH.
Qed.

Lemma colon_exact (c : ascii) : sameChar true ":" c = true <-> c = ":"%char.
Proof.
  split; [|by intros ->].
  destruct c as [[] [] [] [] [] [] [] []]; (done || discriminate).
Qed.

(** A character that reads like a pattern character which is not white
    space is not white space. *)
Lemma canon_not_space (p c : ascii) :
  JS.canonicalize c = JS.canonicalize p ->
  JS.isSpace (JS.canonicalize p) = false ->
  JS.isSpace c = false.
Proof.
  intros Heq Hp. destruct (JS.isSpace c) eqn:Hc; [|done].
  assert (Hcc : JS.canonicalize c = c)
    by (clear -Hc; by destruct c as [[] [] [] [] [] [] [] []]).
  congruence.
Qed.

Lemma ciEq_head (a : list ascii) (p : ascii) (ps : string) :
  ciEq a (String p ps) ->
  exists c a', a = c :: a' /\ JS.canonicalize c = JS.canonicalize p /\
               ciEq a' ps.
Proof.
  unfold ciEq. destruct a as [|c a']; [done|]. cbn.
  intros [= Hc Ha]. by exists c, a'.
Qed.

Lemma previewUrlAt_inv (s u : list ascii) :
  previewUrlAt s = Some u ->
  exists rest : list ascii, s = u ++ rest /\ IsUrl u /\ stopsAt rest.
Proof.
  unfold previewUrlAt.
  destruct (matchLit true _ s) as [t1|] eqn:H1; [|done].
  apply matchLit_inv in H1 as (m1 & -> & Hm1).
  set (t2 := match t1 with
             | c :: t1' => if sameChar true "s" c then t1' else t1
             | [] => t1
             end).
  destruct (matchLit true _ t2) as [[|c t3]|] eqn:H2; [done| |done].
  apply matchLit_inv in H2 as (m2 & Ht2 & Hm2).
  destruct (urlChar c) eqn:Hc; [|done].
  assert (Hsch : exists scheme,
             m1 ++ t1 = scheme ++ c :: t3 /\
             (ciEq scheme "http://" \/ ciEq scheme "https://")).
  { unfold ciEq in *. subst t2. destruct t1 as [|d t1'].
    - exists (m1 ++ m2). rewrite Ht2, <- app_assoc. split; [done|].
      left. by rewrite map_app, Hm1, Hm2.
    - destruct (sameChar true "s" d) eqn:Hd.
      + exists (m1 ++ d :: m2). rewrite Ht2, <- app_assoc. split; [done|].
        right. apply sameChar_canon in Hd.
        by rewrite map_app, Hm1; cbn [map]; rewrite Hm2, <- Hd.
      + exists (m1 ++ m2). rewrite Ht2, <- app_assoc. split; [done|].
        left. by rewrite map_app, Hm1, Hm2. }
  destruct Hsch as (scheme & Heq & Hscheme). rewrite Heq.
  intros [= <-].
  set (whole := scheme ++ c :: t3).
  assert (Hwhole : whole
                   = (scheme ++ c :: span urlChar t3) ++ skip urlChar t3).
  { subst whole. rewrite <- app_assoc. cbn. by rewrite <- span_skip. }
  exists (skip urlChar t3).
  assert (Htake : take (length whole - length (skip urlChar t3)) whole
                  = scheme ++ c :: span urlChar t3).
  { rewrite Hwhole at 2. rewrite Hwhole at 1.
    rewrite length_app, Nat.add_sub. apply take_app_length. }
  rewrite Htake. split; [exact Hwhole|split].
  - exists scheme, (c :: span urlChar t3).
    split; [done|split; [done|split; [done|]]].
    constructor; [done|apply span_all].
  - apply skip_stops.
Qed.

Lemma previewUrlAt_eq (s t1 t3 : list ascii) (c : ascii) :
  matchLit true (list_ascii_of_string "http") s = Some t1 ->
  matchLit true (list_ascii_of_string "://")
    match t1 with
    | d :: t1' => if sameChar true "s" d then t1' else t1
    | [] => t1
    end = Some (c :: t3) ->
  urlChar c = true ->
  previewUrlAt s = Some (take (length s - length (skip urlChar t3)) s).
Proof. intros H1 H2 Hc. unfold previewUrlAt. by rewrite H1, H2, Hc. Qed.

Lemma previewUrlAt_intro (u rest : list ascii) :
  IsUrl u -> stopsAt rest -> previewUrlAt (u ++ rest) = Some u.
Proof.
  intros (scheme & tail & -> & Hscheme & Hne & Htail) Hrest.
  destruct tail as [|c tail]; [done|].
  apply Forall_cons in Htail as [Hc Htail].
  destruct (skip_app urlChar tail rest Htail Hrest) as [Hskip _].
  assert (Hlen : take (length ((scheme ++ c :: tail) ++ rest) - length rest)
                      ((scheme ++ c :: tail) ++ rest)
                 = scheme ++ c :: tail).
  { rewrite length_app, Nat.add_sub. apply take_app_length. }
  enough (H : previewUrlAt ((scheme ++ c :: tail) ++ rest)
              = Some (take (length ((scheme ++ c :: tail) ++ rest)
                            - length (skip urlChar (tail ++ rest)))
                           ((scheme ++ c :: tail) ++ rest)))
    by (by rewrite H, Hskip, Hlen).
  clear Hlen. destruct Hscheme as [Hs|Hs].
  - apply ciEq_head in Hs as (c1 & a1 & -> & H1 & Hs).
    apply ciEq_head in Hs as (c2 & a2 & -> & H2 & Hs).
    apply ciEq_head in Hs as (c3 & a3 & -> & H3 & Hs).
    apply ciEq_head in Hs as (c4 & a4 & -> & H4 & Hs).
    assert (Hh : ciEq [c1; c2; c3; c4] "http")
      by (unfold ciEq; cbn [map list_ascii_of_string]; congruence).
    pose proof Hs as Hs'.
    apply ciEq_head in Hs' as (c5 & a5 & -> & H5 & _).
    assert (H5s : sameChar true "s" c5 = false).
    { unfold sameChar. rewrite H5. reflexivity. }
    apply (previewUrlAt_eq _ ((c5 :: a5) ++ (c :: tail) ++ rest)
                           (tail ++ rest) c).
    + rewrite <- app_assoc.
      apply (matchLit_app "http" [c1; c2; c3; c4]), Hh.
    + cbn [app]. rewrite H5s. by apply (matchLit_app "://" (c5 :: a5)).
    + exact Hc.
  - apply ciEq_head in Hs as (c1 & a1 & -> & H1 & Hs).
    apply ciEq_head in Hs as (c2 & a2 & -> & H2 & Hs).
    apply ciEq_head in Hs as (c3 & a3 & -> & H3 & Hs).
    apply ciEq_head in Hs as (c4 & a4 & -> & H4 & Hs).
    apply ciEq_head in Hs as (c5 & a5 & -> & H5 & Hs).
    assert (Hh : ciEq [c1; c2; c3; c4] "http")
      by (unfold ciEq; cbn [map list_ascii_of_string]; congruence).
    assert (H5s : sameChar true "s" c5 = true)
      by (by apply sameChar_canon).
    apply (previewUrlAt_eq _ (c5 :: a5 ++ (c :: tail) ++ rest)
                           (tail ++ rest) c).
    + rewrite <- app_assoc.
      apply (matchLit_app "http" [c1; c2; c3; c4]), Hh.
    + rewrite H5s. by apply (matchLit_app "://" a5).
    + exact Hc.
Qed.

Lemma IsUrl_head (u : list ascii) :
  IsUrl u -> exists c u', u = c :: u' /\ JS.isSpace c = false.
Proof.
  intros (scheme & tail & -> & [Hs|Hs] & _);
    apply ciEq_head in Hs as (c & a & -> & Hc & _);
    exists c, (a ++ tail); (split; [done|]);
    by apply (canon_not_space _ _ Hc).
Qed.

Lemma previewTailAt_inv (s u : list ascii) :
  previewTailAt s = Some u ->
  exists ws rest : list ascii,
    s = ":"%char :: ws ++ u ++ rest /\ spaces ws /\ IsUrl u /\ stopsAt rest.
Proof.
  unfold previewTailAt. destruct s as [|c s1]; [done|].
  destruct (sameChar true ":" c) eqn:Hc; [|done].
  apply colon_exact in Hc as ->.
  intros (rest & Heq & Hu & Hrest)%previewUrlAt_inv.
  exists (span JS.isSpace s1), rest.
  split; [|split; [apply span_all|done]].
  by rewrite <- Heq, <- span_skip.
Qed.

Lemma previewTailAt_intro (ws u rest : list ascii) :
  spaces ws -> IsUrl u -> stopsAt rest ->
  previewTailAt (":"%char :: ws ++ u ++ rest) = Some u.
Proof.
  intros Hws Hu Hrest. unfold previewTailAt.
  replace (sameChar true ":" ":") with true by reflexivity.
  destruct (IsUrl_head u Hu) as (c & u' & Hhead & Hc).
  assert (Hskip : skip JS.isSpace (ws ++ u ++ rest) = u ++ rest).
  { apply skip_app; [done|]. by rewrite Hhead. }
  rewrite Hskip. by apply previewUrlAt_intro.
Qed.

Lemma previewSepAt_inv (s u : list ascii) :
  previewSepAt s = Some u ->
  exists sep s2 : list ascii,
    s = sep ++ s2 /\ sepOfCode sep /\ previewTailAt s2 = Some u.
Proof.
  unfold previewSepAt. destruct s as [|c s1]; [done|].
  destruct (JS.isSpace c) eqn:Hc.
  - destruct (matchLit true _ (skip JS.isSpace s1)) as [s2|] eqn:Hm; [|done].
    apply matchLit_inv in Hm as (m & Hskip & Hm). intros Htail.
    exists ((c :: span JS.isSpace s1) ++ m), s2.
    split; [|split; [|done]].
    + rewrite <- app_assoc, <- Hskip. cbn. by rewrite <- span_skip.
    + right. exists (c :: span JS.isSpace s1), m.
      split; [done|split; [done|split; [|done]]].
      constructor; [done|apply span_all].
  - intros Htail. exists [], (c :: s1). split; [done|split; [by left|done]].
Qed.

Lemma previewSepAt_intro (sep s2 : list ascii) (u : list ascii) :
  sepOfCode sep ->
  previewTailAt (":"%char :: s2) = Some u ->
  previewSepAt (sep ++ ":"%char :: s2) = Some u.
Proof.
  intros [->|(ws & m & -> & Hne & Hws & Hm)] Htail; [exact Htail|].
  destruct ws as [|c ws]; [done|].
  apply Forall_cons in Hws as [Hc Hws].
  pose proof Hm as Hm'.
  apply ciEq_head in Hm' as (d & m' & -> & Hd & _).
  assert (Hskip : skip JS.isSpace (ws ++ (d :: m') ++ ":"%char :: s2)
                  = (d :: m') ++ ":"%char :: s2).
  { apply skip_app; [done|]. by apply (canon_not_space _ _ Hd). }
  unfold previewSepAt. rewrite <- app_assoc. cbn [app].
  rewrite Hc. cbn [app] in Hskip. rewrite Hskip.
  change (d :: m' ++ ":"%char :: s2) with ((d :: m') ++ ":"%char :: s2).
  by rewrite (matchLit_app "url" _ _ Hm).
Qed.

(** [previewAt] is the preview pattern with the separator of the code. *)
Lemma previewAt_spec (s u : list ascii) :
  previewAt s = Some u <-> PreviewAt sepOfCode s u.
Proof.
  split.
  - unfold previewAt.
    assert (Hgo : forall (kw : string) (s1 : list ascii),
               matchLit true (list_ascii_of_string kw) s = Some s1 ->
               previewSepAt s1 = Some u ->
               exists k sep ws rest : list ascii,
                 s = k ++ sep ++ ":"%char :: ws ++ u ++ rest /\
                 ciEq k kw /\ sepOfCode sep /\ spaces ws /\ IsUrl u /\
                 stopsAt rest).
    { intros kw s1 (k & -> & Hk)%matchLit_inv
             (sep & s2 & -> & Hsep & Htail)%previewSepAt_inv.
      apply previewTailAt_inv in Htail as (ws & rest & -> & Hws & Hu & Hr).
      by exists k, sep, ws, rest. }
    destruct (matchLit true (list_ascii_of_string "preview") s)
      as [s1|] eqn:Hp.
    + intros Hs.
      destruct (Hgo _ _ Hp Hs) as (k & sep & ws & rest & H & Hk & Hrest).
      exists k, sep, ws, rest. split; [done|split; [by left|done]].
    + destruct (matchLit true (list_ascii_of_string "deploy") s)
        as [s1|] eqn:Hd; [|done].
      intros Hs.
      destruct (Hgo _ _ Hd Hs) as (k & sep & ws & rest & H & Hk & Hrest).
      exists k, sep, ws, rest. split; [done|split; [by right|done]].
  - intros (kw & sep & ws & rest & -> & Hkw & Hsep & Hws & Hu & Hrest).
    assert (Hsepat : previewSepAt (sep ++ ":"%char :: ws ++ u ++ rest)
                     = Some u).
    { apply previewSepAt_intro; [done|]. by apply previewTailAt_intro. }
    unfold previewAt. destruct Hkw as [Hkw|Hkw].
    + by rewrite (matchLit_app "preview" _ _ Hkw).
    + rewrite (matchLit_app "deploy" _ _ Hkw).
      apply ciEq_head in Hkw as (c & k & -> & Hc & _).
      cbn [app matchLit list_ascii_of_string].
      replace (sameChar true "p" c) with false; [done|].
      unfold sameChar. by rewrite Hc.
Qed.

Lemma previewAt_none (s : list ascii) :
  previewAt s = None <-> forall u, ~ PreviewAt sepOfCode s u.
Proof.
  split.
  - intros Hn u Hu%previewAt_spec. congruence.
  - intros Hn. destruct (previewAt s) as [u|] eqn:Hs; [|done].
    by destruct (Hn u); apply previewAt_spec.
Qed.

(** Capture 1 takes part in every match of [previewRe]. *)
Lemma exec_previewRe_captures (s : list ascii) :
  exec true previewRe s <> Some None.
Proof.
  intros (pre & suf & _ & Hm & _)%exec_first.
  rewrite matchAt_previewRe in Hm. by destruct (previewAt suf).
Qed.

Lemma exec_previewRe_some (s u : list ascii) :
  exec true previewRe s = Some (Some u)
  <-> FirstMatch (PreviewAt sepOfCode) s u.
Proof.
  rewrite exec_first. unfold FirstMatch.
  split; intros (pre & suf & Heq & Hm & Hmin); exists pre, suf;
    (split; [done|]).
  - rewrite matchAt_previewRe in Hm. split.
    + apply previewAt_spec.
      destruct (previewAt suf) as [x|]; cbn in Hm; congruence.
    + intros pre' suf' u' Heq' Hlt Hu'.
      specialize (Hmin pre' suf' Heq' Hlt).
      rewrite matchAt_previewRe in Hmin.
      apply previewAt_spec in Hu'. by rewrite Hu' in Hmin.
  - rewrite matchAt_previewRe. split.
    + apply previewAt_spec in Hm. by rewrite Hm.
    + intros pre' suf' Heq' Hlt. rewrite matchAt_previewRe.
      destruct (previewAt suf') as [u'|] eqn:Hu'; [|done].
      apply previewAt_spec in Hu'. by destruct (Hmin pre' suf' u').
Qed.

Lemma exec_previewRe_none (s : list ascii) :
  exec true previewRe s = None <-> NoMatch (PreviewAt sepOfCode) s.
Proof.
  rewrite exec_none. unfold NoMatch. split.
  - intros Hn pre suf u Heq Hu%previewAt_spec.
    specialize (Hn pre suf Heq). rewrite matchAt_previewRe in Hn.
    by rewrite Hu in Hn.
  - intros Hn pre suf Heq. rewrite matchAt_previewRe.
    destruct (previewAt suf) as [u|] eqn:Hu; [|done].
    apply previewAt_spec in Hu. by destruct (Hn pre suf u).
Qed.

Lemma extractPreviewUrl_some (body u : string) :
  extractPreviewUrl body = Some u
  <-> FirstMatch (PreviewAt sepOfCode) (list_ascii_of_string body)
                 (list_ascii_of_string u).
Proof.
  rewrite <- exec_previewRe_some. unfold extractPreviewUrl.
  destruct (exec true previewRe _) as [[url|]|] eqn:He.
  - split.
    + intros [= <-]. by rewrite list_ascii_of_string_of_list_ascii.
    + intros [= ->]. by rewrite string_of_list_ascii_of_string.
  - by destruct (exec_previewRe_captures _ He).
  - done.
Qed.

Lemma extractPreviewUrl_none (body : string) :
  extractPreviewUrl body = None
  <-> NoMatch (PreviewAt sepOfCode) (list_ascii_of_string body).
Proof.
  rewrite <- exec_previewRe_none. unfold extractPreviewUrl.
  destruct (exec true previewRe _) as [[url|]|] eqn:He; [done| |done].
  by destruct (exec_previewRe_captures _ He).
Qed.

(** C5 as stated fails on a body that writes the keyword and [url]
    together: the stated pattern, in which [url] may follow the keyword
    directly, matches at the start of the body with the URL
    [https://x.y], and the code finds no preview URL. *)
Lemma preview_url_counterexample :
  FirstMatch (PreviewAt sepAsStated)
    (list_ascii_of_string "PreviewURL: https://x.y")
    (list_ascii_of_string "https://x.y") /\
  extractPreviewUrl "PreviewURL: https://x.y" = None.
Proof.
  split; [|reflexivity].
  exists [], (list_ascii_of_string "PreviewURL: https://x.y").
  split; [reflexivity|split].
  - exists (list_ascii_of_string "Preview"), (list_ascii_of_string "URL"),
      [" "%char], [].
    split; [reflexivity|]. split; [by left|]. split; [by right|].
    split; [by repeat constructor|]. split; [|done].
    exists (list_ascii_of_string "https://"), (list_ascii_of_string "x.y").
    split; [reflexivity|]. split; [by right|]. split; [done|].
    by repeat constructor.
  - intros pre' suf' u' _ Hlt. cbn in Hlt. lia.
Qed.

(** C5 (amended).  [previewUrl] is the URL of the first match, from the
    left, of: [preview] or [deploy], optionally followed by white space
    and [url], then a colon, optional white space, and an [http://] or
    [https://] URL that runs up to the next white space or closing
    parenthesis or to the end of the body, letters in any case; it is
    absent exactly when the body has no such match. *)
Theorem preview_url_extraction (body : string) :
  (forall u : string,
     extractPreviewUrl body = Some u <->
     FirstMatch (PreviewAt sepOfCode) (list_ascii_of_string body)
                (list_ascii_of_string u)) /\
  (extractPreviewUrl body = None <->
   NoMatch (PreviewAt sepOfCode) (list_ascii_of_string body)).
Proof.
  split; [intros u; apply extractPreviewUrl_some|].
  apply extractPreviewUrl_none.
Qed.

(** The examples of the specification and of the comment in the code. *)
Example preview_url_examples :
  extractPreviewUrl
    ("Preview: https://example.com/x" +:+ String LF "more text")
  = Some "https://example.com/x" /\
  extractPreviewUrl "Preview URL: https://example.com/x"
  = Some "https://example.com/x" /\
  extractPreviewUrl "(deploy: HTTP://example.com/a(b)c)"
  = Some "HTTP://example.com/a(b" /\
  extractPreviewUrl "no link here" = None.
Proof. repeat split. Qed.

(** ** Reserved and optional fields *)

(** A preview URL is a piece of the body. *)
Lemma previewUrl_from_body (body u : string) :
  extractPreviewUrl body = Some u ->
  exists pre post : list ascii,
    list_ascii_of_string body = pre ++ list_ascii_of_string u ++ post.
Proof.
  intros (pre & suf & Heq & Hat & _)%extractPreviewUrl_some.
  destruct Hat as (kw & sep & ws & rest & -> & _).
  exists (pre ++ kw ++ sep ++ ":"%char :: ws), rest.
  rewrite Heq. repeat rewrite <- app_assoc. reflexivity.
Qed.

(** C9 (reserved and optional fields).  Every card the normalizer makes
    leaves the seven Phase-2 fields absent.  [previewUrl] is absent when
    the body holds no preview pattern and [qaGrade] when no label name
    starts with [qa-grade:]; when they are present they are taken from the
    source: the preview URL is a piece of the body and the grade is what
    follows [qa-grade:] in a label name. *)
Theorem reserved_and_optional_fields (issue : GitHubIssue) :
  let card := normalizeGitHubIssue issue in
  let body := list_ascii_of_string (default "" (Issue.body issue)) in
  let names := map Label.name (Issue.labels issue) in
  (Card.lastEventType card = None /\
   Card.lastEventTimestamp card = None /\
   Card.overallVerdict card = None /\
   Card.provenanceVerified card = None /\
   Card.qaProvider card = None /\
   Card.qaModel card = None /\
   Card.qaTemperature card = None) /\
  (Card.previewUrl card = None <-> NoMatch (PreviewAt sepOfCode) body) /\
  (forall u : string,
     Card.previewUrl card = Some u ->
     exists pre post : list ascii,
       body = pre ++ list_ascii_of_string u ++ post) /\
  (Card.qaGrade card = None <->
   Forall (fun n => String.prefix "qa-grade:" n = false) names) /\
  (forall grade : string,
     Card.qaGrade card = Some grade -> In ("qa-grade:" +:+ grade) names).
Proof.
  intros card body names.
  split; [by repeat split|].
  split; [apply extractPreviewUrl_none|].
  split; [intros u; apply previewUrl_from_body|].
  split; [apply qaGrade_none|].
  intros grade (before & after & Heq & _)%qaGrade_some.
  fold names in Heq. rewrite Heq. apply in_or_app. right. by left.
Qed.

(** A card of an item without body and without labels. *)
Example bare_card :
  normalizeGitHubIssue
    (Issue.mk 3 "Fix login" "https://github.com/o/r/pull/3" None []
              "2026-02-01T10:00:00Z" (Some "https://api.github.com/pr/3"))
  = {| Card.type := TPr; Card.number := 3; Card.title := "Fix login";
       Card.url := "https://github.com/o/r/pull/3"; Card.body := "";
       Card.labels := []; Card.updatedAt := "2026-02-01T10:00:00Z";
       Card.previewUrl := None; Card.statusLabels := [];
       Card.needsLabels := []; Card.qaGrade := None;
       Card.hasAgentBrief := false;
       Card.lastEventType := None; Card.lastEventTimestamp := None;
       Card.overallVerdict := None; Card.provenanceVerified := None;
       Card.qaProvider := None; Card.qaModel := None;
       Card.qaTemperature := None |}.
Proof. reflexivity. Qed.

(** ** Orchestration *)

Lemma truthy_Some (s : string) : s <> "" -> truthy (Some s) = true.
Proof. by destruct s. Qed.

Lemma encodeQuery_queue (q : QueueType) :
  exists query,
    getQueryForQueue (queueName q) = inr query /\
    encodeQuery query = encodedQueryOf q.
Proof. destruct q; eexists; split; reflexivity. Qed.

(** A read that finds no live entry returns none and leaves the clock
    function, the provider and the outbound requests as they were. *)
Lemma getCached_not_live {A} (key : string) (w : World A) :
  ~ live w key ->
  exists w' : World A,
    getCached key w = (None, w') /\
    cache w' !! key = None /\
    clock w' = clock w /\ provider w' = provider w /\
    outbound w' = outbound w /\ (reads w <= reads w')%nat.
Proof.
  intros Hnot. destruct (cache w !! key) as [e|] eqn:Hk.
  - destruct (Z.lt_ge_cases (now w - timestamp e) CACHE_TTL) as [Hlt|Hge].
    + destruct Hnot. by exists e.
    + rewrite (getCached_expired _ _ _ Hk Hge). eexists. split; [done|].
      cbn. split; [apply lookup_delete_eq|]. repeat split; lia.
  - rewrite (getCached_absent _ _ Hk). exists w. repeat split; (done || lia).
Qed.

(** The handler past its checks: a configured token and a known queue. *)
Lemma GET_known_queue (q : QueueType) (token : string) (request : Request)
  (w : World CachedQueue) :
  token <> "" -> asksFor request q ->
  GET (Some token) request w
  = (let* cachedData := getCached (cacheKey q) in
     match cachedData with
     | Some cachedData =>
         ret (queueResponse
                {| queue := queueName q; cards := cq_cards cachedData;
                   cached := true; fetchedAt := cq_fetchedAt cachedData |})
     | None =>
         let* fetched := fetchGitHubQueue (queueName q) token in
         match fetched with
         | inr cards =>
             let* now := Date_now in
             match JS.toISOString (JS.newDate (Some now)) with
             | Some fetchedAt =>
                 let* _ := setCache (cacheKey q)
                             {| cq_cards := cards;
                                cq_fetchedAt := fetchedAt |} in
                 ret (queueResponse
                        {| queue := queueName q; cards := cards;
                           cached := false; fetchedAt := fetchedAt |})
             | None =>
                 ret (errorResponse 502 "GITHUB_ERROR" "Invalid time value")
             end
         | inl error =>
             ret (errorResponse 502 "GITHUB_ERROR" (message error))
         end
     end) w.
Proof.
  intros Htok Hq. unfold GET, asksFor in *.
  rewrite (truthy_Some _ Htok), Hq.
  by destruct q.
Qed.

(** A successful answer of the provider gives the normalized items. *)
Lemma fetchGitHubQueue_ok {A} (q : QueueType) (token : string)
  (w : World A) (response : HttpResponse) (raw : list GitHubIssue) :
  provider w (fetches w) (searchRequest (encodedQueryOf q) token)
  = Responded response ->
  ok response = true ->
  items response = inr raw ->
  fetchGitHubQueue (queueName q) token w
  = (inr (map normalizeGitHubIssue raw),
     snd (fetch (searchUrl (encodedQueryOf q)) (searchHeaders token) w)).
Proof.
  intros Hp Hok Hitems.
  destruct (encodeQuery_queue q) as (query & Hq & Henc).
  unfold fetchGitHubQueue. rewrite Hq, Henc. unfold bind, fetch.
  unfold fetches, searchRequest in Hp. rewrite Hp, Hok, Hitems. done.
Qed.

Lemma toISOString_valid (t : Z) :
  (Z.abs t <= JS.maxTime)%Z ->
  exists stamp, JS.toISOString (JS.newDate (Some t)) = Some stamp /\
                JS.toISOString (Some t) = Some stamp.
Proof.
  intros Ht. unfold JS.newDate. apply Z.leb_le in Ht. rewrite Ht.
  unfold JS.toISOString. destruct (JS.civil _) as [[y m] d]. by eexists.
Qed.

(** C1 (miss, then hit).  Take a request for one of the five queues, with
    a configured token, at a moment when the cache holds no entry for the
    queue, or one that is 60000 ms old or older at the next reading of
    the clock, and let the provider answer the search with a 2xx status
    and a list of raw items.  The handler then performs exactly one
    outbound request, the search for that queue, and answers 200 with the
    normalized items, one card per item, [cached = false] and the time of
    the fetch: the reading of the clock that follows the look into the
    cache.  It stores that card list and time stamp under the key of the
    queue, dated with the reading after that one.  Any later request for
    the same queue that finds this entry at a reading of the clock less
    than 60000 ms after the one it is dated with is answered 200 with
    [cached = true], the same cards and the stored time stamp, and does
    nothing but read the clock once: no outbound request. *)
Theorem GET_miss_then_hit (q : QueueType) (token : string)
  (request : Request) (w : World CachedQueue) (response : HttpResponse)
  (raw : list GitHubIssue) :
  token <> "" ->
  asksFor request q ->
  (forall e, cache w !! cacheKey q = Some e ->
             (60000 <= clock w (reads w) - timestamp e)%Z) ->
  provider w (fetches w) (searchRequest (encodedQueryOf q) token)
  = Responded response ->
  (200 <= status response <= 299)%Z ->
  items response = inr raw ->
  (forall n, (Z.abs (clock w n) <= JS.maxTime)%Z) ->
  exists (stamp : string) (w1 : World CachedQueue),
    let fresh := map normalizeGitHubIssue raw in
    let n := match cache w !! cacheKey q with
             | Some _ => S (reads w)
             | None => reads w
             end in
    let fetchTime := clock w n in
    let storeTime := clock w (S n) in
    GET (Some token) request w
    = ({| resp_status := 200;
          resp_headers := [("Cache-Control", "no-store")];
          resp_body :=
            QueueBody {| queue := queueName q; cards := fresh;
                         cached := false; fetchedAt := stamp |} |}, w1) /\
    JS.toISOString (Some fetchTime) = Some stamp /\
    reads w1 = S (S n) /\ clock w1 = clock w /\
    outbound w1 = searchRequest (encodedQueryOf q) token :: outbound w /\
    cache w1 !! cacheKey q
    = Some {| data := {| cq_cards := fresh; cq_fetchedAt := stamp |};
              timestamp := storeTime |} /\
    length fresh = length raw /\
    map Card.number fresh = map Issue.number raw /\
    map Card.title fresh = map Issue.title raw /\
    map Card.url fresh = map Issue.html_url raw /\
    forall (token2 : string) (request2 : Request)
           (w2 : World CachedQueue),
      token2 <> "" ->
      asksFor request2 q ->
      cache w2 !! cacheKey q = cache w1 !! cacheKey q ->
      (clock w2 (reads w2) - storeTime < 60000)%Z ->
      GET (Some token2) request2 w2
      = ({| resp_status := 200;
            resp_headers := [("Cache-Control", "no-store")];
            resp_body :=
              QueueBody {| queue := queueName q; cards := fresh;
                           cached := true; fetchedAt := stamp |} |},
         {| cache := cache w2; clock := clock w2; reads := S (reads w2);
            outbound := outbound w2; provider := provider w2 |}).
Proof.
  intros Htok Hreq Hold Hprov Hstatus Hitems Hvalid.
  assert (Hok : ok response = true).
  { unfold ok. apply andb_true_intro. split; apply Z.leb_le; lia. }
  set (n := match cache w !! cacheKey q with
            | Some _ => S (reads w)
            | None => reads w
            end).
  assert (Hmiss : exists w' : World CachedQueue,
             getCached (cacheKey q) w = (None, w') /\
             clock w' = clock w /\ provider w' = provider w /\
             outbound w' = outbound w /\ reads w' = n).
  { subst n. destruct (cache w !! cacheKey q) as [e|] eqn:Hk.
    - rewrite (getCached_expired _ _ _ Hk (Hold e eq_refl)).
      by eexists.
    - rewrite (getCached_absent _ _ Hk). by exists w. }
  destruct Hmiss as (w' & Hget & Hclock & Hprov' & Hout & Hreads).
  assert (Hfetch := fetchGitHubQueue_ok q token w' response raw).
  unfold fetches in Hfetch, Hprov. rewrite Hprov', Hout in Hfetch.
  specialize (Hfetch Hprov Hok Hitems).
  destruct (toISOString_valid (clock w n) (Hvalid _))
    as (stamp & Hstamp & Hstamp').
  exists stamp. eexists. cbn zeta. fold n.
  rewrite (GET_known_queue q token request w Htok Hreq).
  split; [|split; [exact Hstamp'|]].
  - unfold bind at 1. rewrite Hget. unfold bind at 1. rewrite Hfetch.
    unfold bind at 1, Date_now at 1, fetch. cbn [snd reads clock].
    rewrite Hclock, Hreads, Hstamp. reflexivity.
  - cbn [reads outbound cache clock setCacheMap].
    rewrite ?Hclock, ?Hreads, ?Hout.
    split; [reflexivity|]. split; [reflexivity|].
    split; [reflexivity|].
    split; [apply lookup_insert_eq|].
    split; [apply length_map|].
    do 3 (split; [by rewrite map_map|]).
    intros token2 request2 w2 Htok2 Hreq2 Hsame Hfresh.
    rewrite (GET_known_queue q token2 request2 w2 Htok2 Hreq2).
    rewrite ?Hclock, ?Hreads, lookup_insert_eq in Hsame.
    unfold bind. by rewrite (getCached_fresh _ _ _ Hsame Hfresh).
Qed.

(** A run of C1: the first request for [needs-qa] fetches, the second one,
    a second later by the clock, is served from the cache. *)
Lemma GET_miss_then_hit_witness :
  exists (stamp : string) (w1 : World CachedQueue),
    GET (Some "token") needsQaRequest (worldWith (answering okResponse))
    = ({| resp_status := 200;
          resp_headers := [("Cache-Control", "no-store")];
          resp_body :=
            QueueBody {| queue := "needs-qa";
                         cards := map normalizeGitHubIssue exampleItems;
                         cached := false; fetchedAt := stamp |} |}, w1) /\
    JS.toISOString (Some 1700000000000%Z) = Some stamp /\
    fetches w1 = 1%nat /\
    fst (GET (Some "token") needsQaRequest w1)
    = {| resp_status := 200;
         resp_headers := [("Cache-Control", "no-store")];
         resp_body :=
           QueueBody {| queue := "needs-qa";
                        cards := map normalizeGitHubIssue exampleItems;
                        cached := true; fetchedAt := stamp |} |} /\
    fetches (snd (GET (Some "token") needsQaRequest w1)) = 1%nat.
Proof.
  assert (Htok : "token" <> "") by discriminate.
  assert (Hreq : asksFor needsQaRequest NeedsQa) by reflexivity.
  assert (Hold : forall e,
             cache (worldWith (answering okResponse)) !! cacheKey NeedsQa
             = Some e ->
             (60000 <= clock (worldWith (answering okResponse))
                             (reads (worldWith (answering okResponse)))
                       - timestamp e)%Z).
  { intros e He. unfold worldWith in He. cbn [cache] in He.
    by rewrite lookup_empty in He. }
  assert (Hstatus : (200 <= status okResponse <= 299)%Z)
    by (cbn; lia).
  assert (Hvalid : forall n,
             (Z.abs (clock (worldWith (answering okResponse)) n)
              <= JS.maxTime)%Z).
  { intros n. unfold worldWith, JS.maxTime. cbn [clock].
    pose proof (Nat.le_min_r n 60). lia. }
  destruct (GET_miss_then_hit NeedsQa "token" needsQaRequest
              (worldWith (answering okResponse)) okResponse exampleItems
              Htok Hreq Hold eq_refl Hstatus eq_refl Hvalid)
    as (stamp & w1 & Hget & Hstamp & Hreads & Hclock & Hout & _ & _ & _
        & _ & _ & Hhit).
  exists stamp, w1. split; [exact Hget|]. split; [exact Hstamp|].
  split; [unfold fetches; by rewrite Hout|].
  rewrite (Hhit "token" needsQaRequest w1 Htok Hreq eq_refl).
  - split; [reflexivity|]. cbn [snd]. unfold fetches. cbn [outbound].
    by rewrite Hout.
  - rewrite Hclock, Hreads. vm_compute. reflexivity.
Defined.

(** ** Rate-limit answers *)

(** A 403 or a 429 never gives cards: once the body is read, the fetch
    throws what [rateLimitError] builds from the reset header. *)
Lemma fetchGitHubQueue_rate_limited {A} (q : QueueType) (token : string)
  (w : World A) (response : HttpResponse) (errorText : string) :
  provider w (fetches w) (searchRequest (encodedQueryOf q) token)
  = Responded response ->
  status response = 403%Z \/ status response = 429%Z ->
  text response = inr errorText ->
  fst (fetchGitHubQueue (queueName q) token w)
  = inl (rateLimitError (rateLimitReset response)).
Proof.
  intros Hp Hst Htext.
  destruct (encodeQuery_queue q) as (query & Hq & Henc).
  unfold fetchGitHubQueue. rewrite Hq, Henc. unfold bind, fetch.
  unfold fetches, searchRequest in Hp. rewrite Hp, Htext.
  unfold ok. by destruct Hst as [-> | ->].
Qed.

(** Without a reset header, or with an empty one, the message is the bare
    one. *)
Lemma rateLimitError_bare (resetTime : option string) :
  truthy resetTime = false ->
  rateLimitError resetTime = Error "GitHub rate limit exceeded".
Proof. by destruct resetTime as [[|c s]|]. Qed.

(** With a header that holds epoch seconds within the range of [Date],
    the message ends with that instant in ISO form. *)
Lemma rateLimitError_reset (resetTime : string) (seconds : Z) :
  resetTime <> "" ->
  JS.parseInt resetTime = Some seconds ->
  (Z.abs (seconds * 1000) <= JS.maxTime)%Z ->
  exists iso : string,
    JS.toISOString (Some (seconds * 1000)%Z) = Some iso /\
    rateLimitError (Some resetTime)
    = Error ("GitHub rate limit exceeded. Resets at " +:+ iso).
Proof.
  intros Hne Hparse Hrange.
  destruct (toISOString_valid _ Hrange) as (iso & Hiso & Hiso').
  exists iso. split; [done|].
  destruct resetTime as [|c s]; [done|].
  unfold rateLimitError. rewrite Hparse. cbn [option_map].
  by rewrite Hiso.
Qed.

Example rateLimitError_example :
  rateLimitError (Some "1700000000")
  = Error "GitHub rate limit exceeded. Resets at 2023-11-14T22:13:20.000Z".
Proof. reflexivity. Qed.

(** C7 fails on the code at a 429 whose [X-RateLimit-Reset] header is not
    a number, here an HTTP date: [parseInt] gives [NaN], [toISOString]
    throws on the invalid date while the message is being built, and the
    fetch fails with that [RangeError] instead of the rate-limit error;
    the handler reports it as [Invalid time value]. *)
Theorem rate_limit_unreadable_reset :
  status limitedResponse = 429%Z /\
  JS.parseInt "Wed, 21 Oct 2026 07:28:00 GMT" = None /\
  fst (fetchGitHubQueue "needs-qa" "token"
         (worldWith (answering limitedResponse)))
  = inl (RangeError "Invalid time value") /\
  fst (GET (Some "token") needsQaRequest
           (worldWith (answering limitedResponse)))
  = errorResponse 502 "GITHUB_ERROR" "Invalid time value".
Proof. repeat split. Qed.

(** ** [briefRe], part by part *)

Lemma briefRe_parts :
  briefRe = (str "##" ~> Star true space ~> str "Agent Brief"
             ~> Star true space ~> textRe)%re.
Proof. reflexivity. Qed.

Lemma sameChar_LF (c : ascii) : sameChar true LF c = Ascii.eqb c LF.
Proof. by destruct c as [[] [] [] [] [] [] [] []]. Qed.

Lemma sameChar_hash (c : ascii) : sameChar true "#" c = Ascii.eqb c "#".
Proof. by destruct c as [[] [] [] [] [] [] [] []]. Qed.

Lemma inClass_any (c : ascii) :
  inClass true false [CSpace; CNotSpace] c = true.
Proof. cbn. by destruct (JS.isSpace c). Qed.

Lemma LF_space (c : ascii) : Ascii.eqb c LF = true -> JS.isSpace c = true.
Proof. intros ->%Ascii.eqb_eq. reflexivity. Qed.

(** The look-ahead [(?=\n##|$)]. *)
Lemma run_Look_stopRe (s : list ascii) (cap : Capture) :
  run true (Look stopRe) s cap (fun _ c => Some c)
  = if stopsBrief s then Some cap else None.
Proof.
  cbn [run]. unfold stopRe. rewrite run_Alt, run_Seq, run_Lit.
  destruct s as [|c1 s]; [done|].
  rewrite sameChar_LF.
  destruct s as [|c2 [|c3 s]]; cbn [stopsBrief];
    (destruct (Ascii.eqb c1 LF); [rewrite run_str|done]);
    cbn [matchLit list_ascii_of_string run andb]; [done| |].
  - rewrite sameChar_hash. by destruct (Ascii.eqb c2 "#").
  - rewrite !sameChar_hash.
    destruct (Ascii.eqb c2 "#"); [|done].
    by destruct (Ascii.eqb c3 "#").
Qed.

(** The lazy capture, from inside the group that started at [s0]. *)
Lemma lazyRun_briefText (s0 t pre : list ascii) (cap : Capture) :
  s0 = pre ++ t ->
  lazyRun (inClass true false [CSpace; CNotSpace])
    (fun s' _ =>
       run true (Look stopRe) s'
           (Some (take (length s0 - length s') s0)) (fun _ c => Some c))
    t cap
  = Some (Some (pre ++ briefText t)).
Proof.
  revert pre. induction t as [|c t IH]; intros pre Hs0.
  - cbn [lazyRun]. rewrite run_Look_stopRe. cbn [stopsBrief briefText].
    rewrite Hs0, app_nil_r. cbn [length]. rewrite Nat.sub_0_r.
    by rewrite firstn_all.
  - cbn [lazyRun]. rewrite run_Look_stopRe. cbn [briefText].
    destruct (stopsBrief (c :: t)).
    + rewrite Hs0, length_app, Nat.add_sub, take_app_length.
      by rewrite app_nil_r.
    + rewrite inClass_any.
      rewrite (IH (pre ++ [c])) by (by rewrite <- app_assoc).
      by rewrite <- app_assoc.
Qed.

Lemma run_textRe (s : list ascii) (cap : Capture) :
  run true textRe s cap (fun _ c => Some c)
  = match s with
    | c :: s' => if Ascii.eqb c LF then Some (Some (briefText s')) else None
    | [] => None
    end.
Proof.
  unfold textRe. rewrite run_Seq, run_Lit. destruct s as [|c s']; [done|].
  rewrite sameChar_LF. destruct (Ascii.eqb c LF); [|done].
  rewrite run_Seq, run_Group, run_star_lazy_class.
  by rewrite (lazyRun_briefText s' s' []).
Qed.

(** The greedy white space before the line feed. *)
Lemma greedyRun_textRe (s : list ascii) (cap : Capture) :
  greedyRun JS.isSpace
    (fun s' cap' => run true textRe s' cap' (fun _ c => Some c)) s cap
  = option_map (fun rest => Some (briefText rest)) (afterLastLF s).
Proof.
  induction s as [|c s IH]; [done|].
  cbn [greedyRun afterLastLF]. rewrite IH, run_textRe.
  destruct (JS.isSpace c) eqn:Hc.
  - destruct (afterLastLF s); [done|]. cbn [option_map].
    by destruct (Ascii.eqb c LF).
  - destruct (Ascii.eqb c LF) eqn:Hlf; [|done].
    apply LF_space in Hlf. congruence.
Qed.

Lemma greedyRun_ext (P Q : ascii -> bool) (k : Cont) (s : list ascii)
  (cap : Capture) :
  (forall c, P c = Q c) -> greedyRun P k s cap = greedyRun Q k s cap.
Proof.
  intros HPQ. induction s as [|c s IH]; [done|].
  cbn [greedyRun]. by rewrite HPQ, IH.
Qed.

(** The matcher on [briefRe] does what [briefAt] says. *)
Lemma matchAt_briefRe (s : list ascii) :
  matchAt true briefRe s = option_map Some (briefAt s).
Proof.
  unfold matchAt, briefAt. rewrite briefRe_parts.
  rewrite run_Seq, run_str.
  destruct (matchLit true (list_ascii_of_string "##") s) as [s1|]; [|done].
  unfold space. rewrite run_Seq, run_star_greedy_class.
  rewrite greedyRun_longest.
  - rewrite (skip_ext _ JS.isSpace) by apply inClass_space.
    rewrite run_Seq, run_str.
    destruct (matchLit true (list_ascii_of_string "Agent Brief") _)
      as [s2|]; [|done].
    rewrite run_Seq, run_star_greedy_class.
    rewrite (greedyRun_ext _ JS.isSpace) by apply inClass_space.
    rewrite greedyRun_textRe. by destruct (afterLastLF s2).
  - intros c s' Hc. rewrite inClass_space in Hc.
    rewrite run_Seq, run_str.
    change (list_ascii_of_string "Agent Brief")
      with ("A"%char :: list_ascii_of_string "gent Brief").
    by rewrite matchLit_space.
Qed.

Lemma exec_firstAt (r : Regex) (f : list ascii -> option (list ascii))
  (s : list ascii) :
  (forall t, matchAt true r t = option_map Some (f t)) ->
  exec true r s = option_map Some (firstAt f s).
Proof.
  intros Hf. induction s as [|c s IH]; cbn [exec firstAt]; rewrite Hf.
  - by destruct (f []).
  - destruct (f (c :: s)); [done|]. exact IH.
Qed.

(** Capture 1 takes part in every match of [briefRe]. *)
Lemma briefRe_captures (s : list ascii) : exec true briefRe s <> Some None.
Proof.
  rewrite (exec_firstAt _ _ _ matchAt_briefRe). by destruct (firstAt _ _).
Qed.

(** [extractAgentBrief], read off the pattern: the text captured at the
    first start at which the heading matches, trimmed, when that has at
    least 10 characters. *)
Lemma extractAgentBrief_scan (body : string) :
  extractAgentBrief body
  = match firstAt briefAt (list_ascii_of_string body) with
    | Some text =>
        if (length (JS.trim text) <? 10)%nat then None
        else Some (string_of_list_ascii (JS.trim text))
    | None => None
    end.
Proof.
  unfold extractAgentBrief.
  rewrite (exec_firstAt _ _ _ matchAt_briefRe).
  by destruct (firstAt _ _).
Qed.

(** ** The two readings of the agent brief, side by side *)

Lemma trimStart_spaces (ws x : list ascii) :
  spaces ws -> JS.trimStart (ws ++ x) = JS.trimStart x.
Proof.
  intros Hws. induction Hws as [|c ws Hc _ IH]; [done|].
  cbn. by rewrite Hc.
Qed.

Lemma trimStart_app (x ws : list ascii) :
  spaces ws ->
  JS.trimStart (x ++ ws)
  = match JS.trimStart x with
    | [] => []
    | c :: y => (c :: y) ++ ws
    end.
Proof.
  intros Hws. induction x as [|c x IH]; cbn.
  - rewrite <- (app_nil_r ws), trimStart_spaces by done. done.
  - destruct (JS.isSpace c); [exact IH|done].
Qed.

Lemma trimEnd_spaces (x ws : list ascii) :
  spaces ws -> JS.trimEnd (x ++ ws) = JS.trimEnd x.
Proof.
  intros Hws. unfold JS.trimEnd. rewrite rev_app_distr.
  rewrite trimStart_spaces; [done|]. by apply Forall_rev.
Qed.

(** White space around a text does not change what [trim] gives. *)
Lemma trim_spaces (ws1 x ws2 : list ascii) :
  spaces ws1 -> spaces ws2 -> JS.trim (ws1 ++ x ++ ws2) = JS.trim x.
Proof.
  intros H1 H2. unfold JS.trim.
  rewrite trimStart_spaces, trimStart_app by done.
  destruct (JS.trimStart x) as [|c y]; [done|].
  by rewrite trimEnd_spaces.
Qed.

Lemma trim_blank (ws : list ascii) : spaces ws -> JS.trim ws = [].
Proof.
  intros Hws. unfold JS.trim.
  rewrite <- (app_nil_r ws), trimStart_spaces by done. reflexivity.
Qed.

Lemma space_not_hash (c : ascii) :
  JS.isSpace c = true -> Ascii.eqb c "#" = false.
Proof.
  destruct c as [[] [] [] [] [] [] [] []]; vm_compute; congruence.
Qed.

(** Up to a heading, the section of the specification is the text the
    code captures; it may keep the line feed before the next heading. *)
Lemma sectionText_briefText (lineStart : bool) (t : list ascii) :
  lineStart && startsHeading t = false ->
  exists tail : list ascii,
    spaces tail /\ sectionText lineStart t = briefText t ++ tail.
Proof.
  revert lineStart. induction t as [|c t IH]; intros lineStart Hno.
  - exists []. split; [constructor|done].
  - cbn [sectionText briefText]. rewrite Hno.
    destruct (stopsBrief (c :: t)) eqn:Hstop.
    + destruct t as [|c2 [|c3 t]]; [done|done|]. cbn in Hstop.
      apply andb_prop in Hstop as [[H1 H2]%andb_prop H3].
      apply Ascii.eqb_eq in H1 as ->, H2 as ->, H3 as ->.
      exists [LF]. split; [by repeat constructor|reflexivity].
    + destruct (IH (Ascii.eqb c LF)) as (tail & Htail & ->).
      * destruct (Ascii.eqb_spec c LF) as [->|Hne]; [|done].
        destruct t as [|c2 [|c3 t]]; [done|done|]. exact Hstop.
      * by exists tail.
Qed.

(** White space before it leaves the section as it is. *)
Lemma sectionText_spaces (mid t : list ascii) (lineStart : bool) :
  spaces mid ->
  sectionText lineStart (mid ++ t)
  = mid ++ sectionText (match mid with
                        | [] => lineStart
                        | _ => Ascii.eqb (List.last mid LF) LF
                        end) t.
Proof.
  intros Hmid. revert lineStart.
  induction Hmid as [|c mid Hc Hmid IH]; intros lineStart; [done|].
  cbn [app sectionText].
  assert (Hh : startsHeading (c :: mid ++ t) = false).
  { cbn [startsHeading]. rewrite (space_not_hash c Hc).
    by destruct (mid ++ t). }
  rewrite Hh, andb_false_r, IH. f_equal. f_equal.
  destruct mid as [|d mid]; [done|]. done.
Qed.

Lemma endsLine_last (mid : list ascii) :
  endsLine mid ->
  match mid with
  | [] => true
  | _ => Ascii.eqb (List.last mid LF) LF
  end = true.
Proof.
  intros [->|(ws & ->)]; [done|].
  destruct (ws ++ [LF]) eqn:Hw; [done|]. rewrite <- Hw, last_last.
  reflexivity.
Qed.

Lemma afterFirstLF_space (c : ascii) (s : list ascii) :
  JS.isSpace c = true ->
  afterFirstLF (c :: s) = if Ascii.eqb c LF then Some s else afterFirstLF s.
Proof.
  intros Hc. unfold afterFirstLF. cbn [skip]. rewrite Hc.
  destruct (Ascii.eqb c LF) eqn:Hlf; cbn [negb andb]; [|done].
  by rewrite Hlf.
Qed.

Lemma afterFirstLF_other (c : ascii) (s : list ascii) :
  JS.isSpace c = false -> afterFirstLF (c :: s) = None.
Proof.
  intros Hc. unfold afterFirstLF. cbn [skip]. rewrite Hc. cbn [andb].
  destruct (Ascii.eqb c LF) eqn:Hlf; [|done].
  apply LF_space in Hlf. congruence.
Qed.

Lemma afterFirstLF_inv (s rest : list ascii) :
  afterFirstLF s = Some rest ->
  exists pre : list ascii, s = pre ++ LF :: rest /\ spaces pre.
Proof.
  revert rest. induction s as [|c s IH]; intros rest; [done|].
  destruct (JS.isSpace c) eqn:Hc.
  - rewrite afterFirstLF_space by done.
    destruct (Ascii.eqb_spec c LF) as [->|Hne].
    + intros [= ->]. exists []. split; [done|constructor].
    + intros (pre & -> & Hpre)%IH. exists (c :: pre).
      split; [done|by constructor].
  - by rewrite afterFirstLF_other.
Qed.

(** The code starts the text after the last line feed of the white space
    that follows the heading words, the specification after the first:
    in between lie blank lines only. *)
Lemma afterLastLF_afterFirstLF (s : list ascii) :
  match afterLastLF s with
  | Some start =>
      exists mid : list ascii,
        afterFirstLF s = Some (mid ++ start) /\ spaces mid /\ endsLine mid
  | None => afterFirstLF s = None
  end.
Proof.
  induction s as [|c s IH]; [done|]. cbn [afterLastLF].
  destruct (JS.isSpace c) eqn:Hc; [|by apply afterFirstLF_other].
  rewrite afterFirstLF_space by done.
  destruct (afterLastLF s) as [start|].
  - destruct IH as (mid & Hfirst & Hmid & Hend).
    destruct (Ascii.eqb_spec c LF) as [->|Hne]; [|by exists mid].
    apply afterFirstLF_inv in Hfirst as (pre & -> & Hpre).
    exists (pre ++ LF :: mid). split; [by rewrite <- app_assoc|]. split.
    + apply Forall_app. split; [done|]. by constructor.
    + right. destruct Hend as [->|(ws & ->)]; [by exists pre|].
      exists (pre ++ LF :: ws). by rewrite <- app_assoc.
  - destruct (Ascii.eqb c LF); [|done].
    exists []. split; [done|]. split; [constructor|by left].
Qed.

Lemma briefAt_headingLineAt (s : list ascii) :
  match briefAt s with
  | Some text =>
      exists mid start : list ascii,
        text = briefText start /\ headingLineAt s = Some (mid ++ start) /\
        spaces mid /\ endsLine mid
  | None => headingLineAt s = None
  end.
Proof.
  unfold briefAt, headingLineAt.
  destruct (matchLit true _ s) as [s1|]; [|done].
  destruct (matchLit true _ (skip JS.isSpace s1)) as [s2|]; [|done].
  pose proof (afterLastLF_afterFirstLF s2) as H.
  destruct (afterLastLF s2) as [start|]; cbn [option_map]; [|done].
  destruct H as (mid & H1 & H2 & H3). by exists mid, start.
Qed.

Lemma firstAt_firstHeading (s : list ascii) :
  match firstAt briefAt s with
  | Some text =>
      exists mid start : list ascii,
        text = briefText start /\ firstHeading s = Some (mid ++ start) /\
        spaces mid /\ endsLine mid
  | None => firstHeading s = None
  end.
Proof.
  induction s as [|c s IH]; cbn [firstAt firstHeading].
  - pose proof (briefAt_headingLineAt []) as H.
    destruct (briefAt []) as [text|].
    + destruct H as (mid & start & -> & -> & H). by exists mid, start.
    + by rewrite H.
  - pose proof (briefAt_headingLineAt (c :: s)) as H.
    destruct (briefAt (c :: s)) as [text|].
    + destruct H as (mid & start & -> & -> & H). by exists mid, start.
    + by rewrite H.
Qed.

Lemma briefText_prefix (s : list ascii) :
  exists rest : list ascii, s = briefText s ++ rest.
Proof.
  induction s as [|c s [rest IH]]; [by exists []|].
  cbn [briefText]. destruct (stopsBrief (c :: s)); [by exists (c :: s)|].
  exists rest. cbn. by rewrite <- IH.
Qed.

(** The captured text starts with a heading exactly when the input it was
    taken from does. *)
Lemma startsHeading_briefText (start : list ascii) :
  startsHeading (briefText start) = startsHeading start.
Proof.
  destruct start as [|c1 [|c2 t]]; [done| |].
  - reflexivity.
  - cbn [startsHeading].
    destruct (Ascii.eqb_spec c1 "#") as [->|H1]; cbn [andb].
    + destruct (Ascii.eqb_spec c2 "#") as [->|H2].
      * cbn [briefText].
        replace (stopsBrief ("#"%char :: "#"%char :: t)) with false
          by (by destruct t).
        destruct t as [|c3 t]; [reflexivity|].
        cbn [briefText].
        replace (stopsBrief ("#"%char :: c3 :: t)) with false
          by (by destruct t).
        reflexivity.
      * cbn [briefText]. destruct (stopsBrief _); [done|].
        cbn [briefText]. destruct (stopsBrief _); [done|].
        cbn [startsHeading]. apply Ascii.eqb_neq in H2. by rewrite H2.
    + cbn [briefText]. destruct (stopsBrief _); [done|].
      apply Ascii.eqb_neq in H1.
      cbn [startsHeading]. rewrite H1.
      by destruct (if stopsBrief (c2 :: t) then _ else _).
Qed.

(** The reading of the specification and the code, side by side: they
    agree on every body, except where the text the code captures starts
    with a heading; there the section of the specification is empty. *)
Lemma agent_brief_readings (body : string) :
  let coded := Card.hasAgentBrief (normalizeGitHubIssue (bodyIssue body)) in
  match firstAt briefAt (list_ascii_of_string body) with
  | Some text =>
      statedHasAgentBrief body = negb (startsHeading text) && coded
  | None => statedHasAgentBrief body = false /\ coded = false
  end.
Proof.
  cbn zeta. unfold normalizeGitHubIssue, bodyIssue.
  cbn [Card.hasAgentBrief Issue.body default].
  rewrite extractAgentBrief_scan. unfold statedHasAgentBrief.
  pose proof (firstAt_firstHeading (list_ascii_of_string body)) as H.
  destruct (firstAt briefAt _) as [text|]; [|by rewrite H].
  destruct H as (mid & start & -> & -> & Hmid & Hend).
  rewrite startsHeading_briefText, sectionText_spaces by done.
  rewrite (endsLine_last _ Hend).
  destruct (startsHeading start) eqn:Hstart; cbn [negb andb].
  - destruct start as [|c1 [|c2 t]]; [done|done|].
    cbn [sectionText andb]. rewrite Hstart, app_nil_r.
    by rewrite (trim_blank _ Hmid).
  - destruct (sectionText_briefText true start) as (tail & Htail & ->);
      [done|].
    rewrite trim_spaces by done.
    destruct (Nat.ltb_spec (length (JS.trim (briefText start))) 10)
      as [Hlt|Hge].
    + by apply Nat.leb_gt.
    + by apply Nat.leb_le.
Qed.

(** ** Agent brief *)

(** The examples of the specification: a long section, a short one, no
    heading. *)
Example agent_brief_examples :
  extractAgentBrief
    ("## Agent Brief" +:+ String LF
       "This is a sufficiently long brief description."
     +:+ String LF "## Other")
  = Some "This is a sufficiently long brief description." /\
  extractAgentBrief ("## Agent Brief" +:+ String LF "short") = None /\
  extractAgentBrief "No heading in this body" = None.
Proof. repeat split. Qed.

(** C6 fails on the code at a body whose Agent Brief section is empty and
    is followed by another heading: the line feed that ends the heading
    line (and the blank line, which the greedy [\s*] takes) is consumed
    before the capture starts, so the look-ahead for a line feed and [##]
    does not see the heading right at the start of the capture, and the
    next section is taken for the brief.  The section as the specification
    delimits it is empty, far below 10 characters. *)
Theorem agent_brief_empty_section :
  let body := "## Agent Brief" +:+ String LF (String LF
              ("## Acceptance Criteria" +:+ String LF "- [ ] done")) in
  extractAgentBrief body
  = Some ("## Acceptance Criteria" +:+ String LF "- [ ] done") /\
  Card.hasAgentBrief (normalizeGitHubIssue (bodyIssue body)) = true /\
  option_map (sectionText true) (firstHeading (list_ascii_of_string body))
  = Some [LF] /\
  statedHasAgentBrief body = false.
Proof. repeat split. Qed.

(** On the examples of the specification the two readings agree. *)
Example stated_agent_brief_examples :
  statedHasAgentBrief
    ("## Agent Brief" +:+ String LF
       "This is a sufficiently long brief description."
     +:+ String LF "## Other") = true /\
  statedHasAgentBrief ("## Agent Brief" +:+ String LF "short") = false /\
  statedHasAgentBrief "No heading in this body" = false.
Proof. repeat split. Qed.

(* ====================================================================== *)
(** * Further properties of the code                                       *)
(* ====================================================================== *)

(** ** The cache under sequences of uses *)

Lemma runOp_untouched {A} (key : string) (op : CacheOp A) (w : World A) :
  touches key op = false ->
  cache (runOp op w) !! key = cache w !! key.
Proof.
  destruct op as [k|k d]; cbn -[getCached]; intros Hk%String.eqb_neq.
  - destruct (cache w !! k) as [e|] eqn:He.
    + destruct (Z.lt_ge_cases (now w - timestamp e) CACHE_TTL) as [Hlt|Hge].
      * by rewrite (getCached_fresh _ _ _ He Hlt).
      * rewrite (getCached_expired _ _ _ He Hge). cbn.
        by rewrite lookup_delete_ne.
    + by rewrite (getCached_absent _ _ He).
  - by rewrite lookup_insert_ne.
Qed.

(** X1.  Entries do not interfere: whatever reads and writes are made
    under other keys, expired or not, the entry of a key stays exactly as
    it was. *)
Theorem cache_keys_independent {A} (key : string) (ops : list (CacheOp A))
  (w : World A) :
  forallb (fun op => negb (touches key op)) ops = true ->
  cache (runOps ops w) !! key = cache w !! key.
Proof.
  revert w. induction ops as [|op ops IH]; intros w Hops; [done|].
  cbn [forallb] in Hops. apply andb_prop in Hops as [Hop Hops].
  cbn [runOps]. rewrite (IH _ Hops).
  apply runOp_untouched. by apply negb_true_iff.
Qed.

Lemma cache_keys_independent_witness :
  cache (runOps [Put "github:queue:needs-pm" 1%nat;
                 Get "github:queue:in-flight";
                 Put "github:queue:needs-pm" 2%nat]
           (snd (setCache "github:queue:needs-qa" 0%nat
                   (exampleWorld (fun n => 45000 * Z.of_nat n)%Z))))
    !! "github:queue:needs-qa"
  = Some {| data := 0%nat; timestamp := 0 |}.
Proof.
  rewrite (cache_keys_independent "github:queue:needs-qa"
             [Put "github:queue:needs-pm" 1%nat;
              Get "github:queue:in-flight";
              Put "github:queue:needs-pm" 2%nat]
             (snd (setCache "github:queue:needs-qa" 0%nat
                     (exampleWorld (fun n => 45000 * Z.of_nat n)%Z))))
    by reflexivity.
  vm_compute. reflexivity.
Defined.

Lemma getCached_hit_inv {A} (key : string) (w : World A) (v : A) :
  fst (getCached key w) = Some v ->
  exists e, cache w !! key = Some e /\ data e = v /\
            (now w - timestamp e < CACHE_TTL)%Z.
Proof.
  destruct (cache w !! key) as [e|] eqn:He.
  - destruct (Z.lt_ge_cases (now w - timestamp e) CACHE_TTL) as [Hlt|Hge].
    + rewrite (getCached_fresh _ _ _ He Hlt). intros [= <-]. by exists e.
    + by rewrite (getCached_expired _ _ _ He Hge).
  - by rewrite (getCached_absent _ _ He).
Qed.

Lemma runOps_stored {A} (P : string -> A -> Prop) (ops : list (CacheOp A))
  (w : World A) :
  (forall k e, cache w !! k = Some e -> P k (data e)) ->
  (forall k d, In (Put k d) ops -> P k d) ->
  forall k e, cache (runOps ops w) !! k = Some e -> P k (data e).
Proof.
  revert w. induction ops as [|op ops IH]; intros w Hw Hops; [exact Hw|].
  cbn [runOps]. apply IH; [|intros k d Hin; apply Hops; by right].
  intros k e. destruct op as [k'|k' d]; cbn -[getCached].
  - destruct (getCached_lookup k' k w) as [-> | ->]; [apply Hw|done].
  - destruct (decide (k' = k)) as [->|Hne].
    + rewrite lookup_insert_eq. intros [= <-]. apply Hops. by left.
    + rewrite lookup_insert_ne by done. apply Hw.
Qed.

(** X2.  The cache invents nothing: starting from an empty cache, whatever
    [getCached] returns for a key was written under that very key by an
    earlier [setCache]. *)
Theorem cache_returns_what_was_put {A} (key : string) (v : A)
  (ops : list (CacheOp A)) (w : World A) :
  cache w = ∅ ->
  fst (getCached key (runOps ops w)) = Some v ->
  In (Put key v) ops.
Proof.
  intros Hempty (e & He & <- & _)%getCached_hit_inv.
  apply (runOps_stored (fun k d => In (Put k d) ops) ops w); [|done|done].
  intros k e'. by rewrite Hempty, lookup_empty.
Qed.

Lemma cache_returns_what_was_put_witness :
  In (Put "k" 5%nat) [Put "j" 1%nat; Put "k" 5%nat; Get "j"].
Proof.
  apply (cache_returns_what_was_put "k" 5%nat
           [Put "j" 1%nat; Put "k" 5%nat; Get "j"]
           (exampleWorld (fun n => 1000 * Z.of_nat n)%Z)).
  - reflexivity.
  - vm_compute. reflexivity.
Defined.

(** ** The search client *)

(** [fetchGitHubQueue] for a known queue, in one equation: one outbound
    request, and the result read off the outcome. *)
Lemma fetchGitHubQueue_eq {A} (q : QueueType) (token : string)
  (w : World A) :
  fetchGitHubQueue (queueName q) token w
  = (outcomeResult
       (provider w (fetches w) (searchRequest (encodedQueryOf q) token)),
     sent (searchRequest (encodedQueryOf q) token) w).
Proof.
  destruct (encodeQuery_queue q) as (query & Hq & Henc).
  unfold fetchGitHubQueue. rewrite Hq, Henc.
  unfold bind, fetch, outcomeResult, fetches, searchRequest, sent.
  destruct (provider w _ _) as [r|e]; [|done].
  destruct (negb (ok r)); [|by destruct (items r)].
  destruct (text r); [done|]. by destruct (_ || _).
Qed.

(** X3.  Cards come from a success only: when a queue fetch returns cards,
    the provider has answered its one request with a 2xx status and a
    list of items, and the cards are those items normalized, one card per
    item and in the order of the items. *)
Theorem cards_only_from_success {A} (q : QueueType) (token : string)
  (w : World A) (fetched : list WorkQueueCard) :
  fst (fetchGitHubQueue (queueName q) token w) = inr fetched ->
  exists (response : HttpResponse) (raw : list GitHubIssue),
    provider w (fetches w) (searchRequest (encodedQueryOf q) token)
    = Responded response /\
    (200 <= status response <= 299)%Z /\
    items response = inr raw /\
    fetched = map normalizeGitHubIssue raw /\
    length fetched = length raw /\
    map Card.number fetched = map Issue.number raw.
Proof.
  rewrite fetchGitHubQueue_eq. cbn [fst]. unfold outcomeResult.
  destruct (provider w _ _) as [r|e]; [|done].
  destruct (ok r) eqn:Hok; cbn [negb];
    [|by destruct (text r); [|destruct (_ || _)]].
  destruct (items r) as [e|raw] eqn:Hitems; [done|]. intros [= <-].
  exists r, raw. split; [done|]. split.
  { unfold ok in Hok. apply andb_prop in Hok as [H1 H2].
    apply Z.leb_le in H1, H2. lia. }
  split; [done|]. split; [done|]. split; [apply length_map|].
  by rewrite map_map.
Qed.

Lemma cards_only_from_success_witness :
  exists (response : HttpResponse) (raw : list GitHubIssue),
    provider (worldWith (answering okResponse)) 0
             (searchRequest (encodedQueryOf DevQueue) "token")
    = Responded response /\
    (200 <= status response <= 299)%Z /\
    items response = inr raw /\
    map normalizeGitHubIssue exampleItems = map normalizeGitHubIssue raw /\
    length (map normalizeGitHubIssue exampleItems) = length raw /\
    map Card.number (map normalizeGitHubIssue exampleItems)
    = map Issue.number raw.
Proof.
  apply (cards_only_from_success DevQueue "token"
           (worldWith (answering okResponse))
           (map normalizeGitHubIssue exampleItems)).
  reflexivity.
Defined.

(** X4.  How a queue fetch fails: a rejected [fetch], a body of a 2xx
    answer that is not the expected JSON, and a body of any other answer
    that cannot be read, 403 and 429 included, pass their own exception
    on; once its body is read, a status outside 2xx other than 403 and
    429 gives [GitHub API error:] with the status in decimal. *)
Theorem fetch_failures {A} (q : QueueType) (token : string) (w : World A) :
  let outcome :=
    provider w (fetches w) (searchRequest (encodedQueryOf q) token) in
  (forall e, outcome = Rejected e ->
             fst (fetchGitHubQueue (queueName q) token w) = inl e) /\
  (forall response e,
     outcome = Responded response -> ok response = true ->
     items response = inl e ->
     fst (fetchGitHubQueue (queueName q) token w) = inl e) /\
  (forall response e,
     outcome = Responded response -> ok response = false ->
     text response = inl e ->
     fst (fetchGitHubQueue (queueName q) token w) = inl e) /\
  (forall response errorText,
     outcome = Responded response -> ok response = false ->
     text response = inr errorText ->
     status response <> 403%Z -> status response <> 429%Z ->
     fst (fetchGitHubQueue (queueName q) token w)
     = inl (Error ("GitHub API error: " +:+ JS.showZ (status response)))).
Proof.
  cbn zeta. rewrite fetchGitHubQueue_eq. cbn [fst]. unfold outcomeResult.
  split; [by intros e ->|]. split; [|split].
  - intros r e -> Hok Hitems. by rewrite Hok, Hitems.
  - intros r e -> Hok Htext. by rewrite Hok, Htext.
  - intros r errorText -> Hok Htext H403 H429. rewrite Hok, Htext.
    cbn [negb]. apply Z.eqb_neq in H403, H429. by rewrite H403, H429.
Qed.

Example fetch_failures_example :
  fst (fetchGitHubQueue "in-flight" "token"
         (worldWith (answering notFoundResponse)))
  = inl (Error "GitHub API error: 404") /\
  fst (fetchGitHubQueue "in-flight" "token"
         (worldWith (fun _ _ => Rejected (TypeError "fetch failed"))))
  = inl (TypeError "fetch failed") /\
  fst (fetchGitHubQueue "in-flight" "token"
         (worldWith (answering brokenResponse)))
  = inl (TypeError "terminated").
Proof. repeat split. Qed.

(** X5.  A rate-limit answer that can be read: on a 403 or a 429 whose
    body has been read, the fetch fails with the bare message when there
    is no reset header, or an empty one, and with the message that ends in
    the reset instant in ISO form when [parseInt] reads the header as
    epoch seconds within the range of [Date]. *)
Theorem rate_limit_message {A} (q : QueueType) (token : string)
  (w : World A) (response : HttpResponse) (errorText : string) :
  provider w (fetches w) (searchRequest (encodedQueryOf q) token)
  = Responded response ->
  status response = 403%Z \/ status response = 429%Z ->
  text response = inr errorText ->
  (truthy (rateLimitReset response) = false ->
   fst (fetchGitHubQueue (queueName q) token w)
   = inl (Error "GitHub rate limit exceeded")) /\
  (forall (resetTime : string) (seconds : Z),
     rateLimitReset response = Some resetTime -> resetTime <> "" ->
     JS.parseInt resetTime = Some seconds ->
     (Z.abs (seconds * 1000) <= JS.maxTime)%Z ->
     exists iso : string,
       JS.toISOString (Some (seconds * 1000)%Z) = Some iso /\
       fst (fetchGitHubQueue (queueName q) token w)
       = inl (Error ("GitHub rate limit exceeded. Resets at " +:+ iso))).
Proof.
  intros Hp Hst Htext.
  rewrite (fetchGitHubQueue_rate_limited q token w response errorText
             Hp Hst Htext).
  split.
  - intros Hno. by rewrite rateLimitError_bare.
  - intros resetTime seconds -> Hne Hparse Hrange.
    destruct (rateLimitError_reset _ _ Hne Hparse Hrange) as (iso & H1 & H2).
    exists iso. by rewrite H2.
Qed.

Lemma rate_limit_message_witness :
  exists iso : string,
    JS.toISOString (Some (1700000000 * 1000)%Z) = Some iso /\
    fst (fetchGitHubQueue "needs-qa" "token"
           (worldWith (answering resetResponse)))
    = inl (Error ("GitHub rate limit exceeded. Resets at " +:+ iso)).
Proof.
  apply (proj2 (rate_limit_message NeedsQa "token"
                  (worldWith (answering resetResponse)) resetResponse
                  "API rate limit exceeded"
                  eq_refl (or_introl eq_refl) eq_refl)
           "1700000000" 1700000000%Z).
  - reflexivity.
  - discriminate.
  - reflexivity.
  - vm_compute. discriminate.
Defined.

(** ** The handler *)

Lemma cacheKey_injective (q1 q2 : QueueType) :
  cacheKey q1 = cacheKey q2 -> q1 = q2.
Proof. by destruct q1, q2. Qed.

(** A read of the cache leaves the outbound requests and the provider
    alone. *)
Lemma getCached_outbound {A} (key : string) (w : World A) :
  outbound (snd (getCached key w)) = outbound w /\
  provider (snd (getCached key w)) = provider w.
Proof.
  destruct (cache w !! key) as [e|] eqn:He.
  - destruct (Z.lt_ge_cases (now w - timestamp e) CACHE_TTL) as [Hlt|Hge].
    + by rewrite (getCached_fresh _ _ _ He Hlt).
    + by rewrite (getCached_expired _ _ _ He Hge).
  - by rewrite (getCached_absent _ _ He).
Qed.

(** [GET] past its checks, by cases on the cache and on the outcome of
    the fetch. *)
Lemma GET_miss (q : QueueType) (token : string) (request : Request)
  (w w1 : World CachedQueue) :
  token <> "" -> asksFor request q ->
  getCached (cacheKey q) w = (None, w1) ->
  GET (Some token) request w
  = match outcomeResult
            (provider w1 (fetches w1)
                      (searchRequest (encodedQueryOf q) token)) with
    | inr fetched =>
        match JS.toISOString (JS.newDate (Some (now w1))) with
        | Some stamp =>
            (queueResponse {| queue := queueName q; cards := fetched;
                              cached := false; fetchedAt := stamp |},
             snd (setCache (cacheKey q)
                    {| cq_cards := fetched; cq_fetchedAt := stamp |}
                    (tick (sent (searchRequest (encodedQueryOf q) token)
                                w1))))
        | None =>
            (errorResponse 502 "GITHUB_ERROR" "Invalid time value",
             tick (sent (searchRequest (encodedQueryOf q) token) w1))
        end
    | inl e =>
        (errorResponse 502 "GITHUB_ERROR" (message e),
         sent (searchRequest (encodedQueryOf q) token) w1)
    end.
Proof.
  intros Htok Hreq Hget. rewrite (GET_known_queue q token request w Htok Hreq).
  unfold bind at 1. rewrite Hget. unfold bind at 1.
  rewrite fetchGitHubQueue_eq.
  destruct (outcomeResult _) as [e|fetched]; [done|].
  unfold bind at 1, Date_now at 1. cbn [reads clock sent].
  unfold now. cbn [reads clock sent].
  by destruct (JS.toISOString _).
Qed.

(** X6.  Failures are not cached.  When the fetch for a queue fails, the
    handler answers 502 [GITHUB_ERROR] with the message of the failure,
    has made exactly one outbound request, holds no entry for the queue
    afterwards and leaves every other entry as it was: the next request
    for the queue goes to the provider again. *)
Theorem GET_failure_not_cached (q : QueueType) (token : string)
  (request : Request) (w : World CachedQueue) (e : Exn) :
  token <> "" ->
  asksFor request q ->
  ~ live w (cacheKey q) ->
  fst (fetchGitHubQueue (queueName q) token w) = inl e ->
  exists w1 : World CachedQueue,
    GET (Some token) request w
    = (errorResponse 502 "GITHUB_ERROR" (message e), w1) /\
    outbound w1 = searchRequest (encodedQueryOf q) token :: outbound w /\
    cache w1 !! cacheKey q = None /\
    ~ live w1 (cacheKey q) /\
    forall key, key <> cacheKey q -> cache w1 !! key = cache w !! key.
Proof.
  intros Htok Hreq Hnot Hfail.
  destruct (getCached_not_live _ _ Hnot)
    as (w' & Hget & Hgone & Hclock & Hprov & Hout & Hreads).
  rewrite fetchGitHubQueue_eq in Hfail. cbn [fst] in Hfail.
  rewrite (GET_miss q token request w w' Htok Hreq Hget).
  unfold fetches in *. rewrite Hprov, Hout, Hfail.
  eexists. split; [reflexivity|]. cbn [sent outbound cache].
  split; [by rewrite Hout|]. split; [done|]. split.
  - intros (e' & He' & _). cbn [sent cache] in He'. congruence.
  - intros key Hne.
    assert (Hw' : w' = snd (getCached (cacheKey q) w)) by (by rewrite Hget).
    rewrite Hw'.
    apply (runOp_untouched key (Get (cacheKey q)) w).
    cbn. by apply String.eqb_neq.
Qed.

Lemma GET_failure_not_cached_witness :
  exists w1 : World CachedQueue,
    GET (Some "token") needsQaRequest
        (worldWith (answering notFoundResponse))
    = (errorResponse 502 "GITHUB_ERROR" "GitHub API error: 404", w1) /\
    outbound w1
    = [searchRequest (encodedQueryOf NeedsQa) "token"] /\
    cache w1 !! cacheKey NeedsQa = None.
Proof.
  assert (Hnot : ~ live (worldWith (answering notFoundResponse))
                        (cacheKey NeedsQa)).
  { intros (e & He & _). unfold worldWith in He. cbn [cache] in He.
    by rewrite lookup_empty in He. }
  destruct (GET_failure_not_cached NeedsQa "token" needsQaRequest
              (worldWith (answering notFoundResponse))
              (Error "GitHub API error: 404")
              ltac:(discriminate) eq_refl Hnot eq_refl)
    as (w1 & H1 & H2 & H3 & _).
  exists w1. by repeat split.
Defined.

Local Ltac answers_error :=
  right; eexists _, _;
  cbn [fst ret errorResponse resp_status resp_body resp_headers];
  split; [cbn [In]; auto 10|split; reflexivity].

Local Ltac answers_ok :=
  left; eexists;
  cbn [fst ret queueResponse resp_status resp_body resp_headers queue];
  repeat (split; [reflexivity|]); cbn [queue]; assumption.

(** X7.  The answers of the handler: the status is 200, 400, 401 or 502;
    a 200 carries a queue response for the queue that was asked, one of
    the five, and the [Cache-Control: no-store] header; every other
    status carries an error body and no header. *)
Theorem GET_answers (token : option string) (request : Request)
  (w : World CachedQueue) :
  let r := fst (GET token request w) in
  (exists qr : GitHubQueueResponse,
     resp_status r = 200%Z /\ resp_body r = QueueBody qr /\
     resp_headers r = [("Cache-Control", "no-store")] /\
     searchParams_get request "queue" = Some (queue qr) /\
     In (queue qr) validQueues) \/
  (exists code msg : string,
     In (resp_status r) [400; 401; 502]%Z /\
     resp_body r = ErrorBody code msg /\ resp_headers r = []).
Proof.
  cbn zeta. remember (fst (GET token request w)) as r eqn:Hr.
  unfold GET in Hr.
  destruct (truthy token) eqn:Htok; cbn [negb] in Hr;
    [|subst r; answers_error].
  destruct (searchParams_get request "queue") as [name|] eqn:Hq;
    [|subst r; answers_error].
  destruct (truthy (Some name)) eqn:Hqt; cbn [negb] in Hr;
    [|subst r; answers_error].
  change (default "" (Some name)) with name in Hr.
  destruct (JS.includes validQueues name) eqn:Hin; cbn [negb] in Hr;
    [|subst r; answers_error].
  assert (Hvalid : In name validQueues).
  { unfold JS.includes in Hin. apply existsb_exists in Hin as (x & Hx & Heq).
    by apply String.eqb_eq in Heq as ->. }
  unfold bind in Hr.
  destruct (getCached _ w) as [[cd|] w1]; [subst r; answers_ok|].
  destruct (fetchGitHubQueue _ _ w1) as [[e|fetched] w2];
    [subst r; answers_error|].
  destruct (Date_now w2) as [t w3].
  destruct (JS.toISOString _); [|subst r; answers_error].
  destruct (setCache _ _ w3) as [u w4]. subst r. answers_ok.
Qed.

(** X8.  At most one outbound request per call, and never to another
    place: the handler leaves the list of outbound requests as it was or
    adds one, the search for the queue that was asked, with the
    configured token as bearer. *)
Theorem GET_at_most_one_fetch (token : option string) (request : Request)
  (w : World CachedQueue) :
  outbound (snd (GET token request w)) = outbound w \/
  exists (q : QueueType) (t : string),
    token = Some t /\ asksFor request q /\
    outbound (snd (GET token request w))
    = {| req_url :=
           "https://api.github.com/search/issues?q=" +:+ encodedQueryOf q
           +:+ "&sort=updated&order=desc&per_page=50";
         req_headers :=
           [("Authorization", "Bearer " +:+ t);
            ("Accept", "application/vnd.github+json");
            ("User-Agent", "dfg-app")] |} :: outbound w.
Proof.
  destruct (truthy token) eqn:Htok;
    [|left; unfold GET; by rewrite Htok].
  destruct token as [[|c t]|]; try done. set (tok := String c t).
  assert (Htok' : tok <> "") by done.
  destruct (searchParams_get request "queue") as [name|] eqn:Hq.
  2: { left. unfold GET. cbn [truthy negb]. by rewrite Hq. }
  destruct (truthy (Some name)) eqn:Hname.
  2: { left. unfold GET. cbn [truthy negb]. by rewrite Hq, Hname. }
  destruct (JS.includes validQueues name) eqn:Hin.
  2: { left. unfold GET. cbn [truthy negb]. rewrite Hq, Hname. cbn [negb].
       change (default "" (Some name)) with name. by rewrite Hin. }
  apply includes_validQueues in Hin as [q ->].
  destruct (getCached (cacheKey q) w) as [[cd|] w1] eqn:Hget.
  - left. rewrite (GET_known_queue q tok request w Htok' Hq).
    unfold bind. rewrite Hget. cbn [snd ret].
    pose proof (getCached_outbound (cacheKey q) w) as [H _].
    by rewrite Hget in H.
  - right. exists q, tok. split; [done|]. split; [done|].
    rewrite (GET_miss q tok request w w1 Htok' Hq Hget).
    assert (Hout : outbound w1 = outbound w).
    { pose proof (getCached_outbound (cacheKey q) w) as [H _].
      by rewrite Hget in H. }
    destruct (outcomeResult _); [by cbn; rewrite Hout|].
    destruct (JS.toISOString _); by cbn; rewrite Hout.
Qed.

(** X9.  The token stays in the request: with a provider that does not
    look at the headers, two calls that differ in the configured token
    only give the same response and leave the same cache; nothing of the
    token reaches the caller or the cache. *)
Theorem GET_token_confined (t1 t2 : string) (request : Request)
  (w : World CachedQueue) :
  t1 <> "" -> t2 <> "" ->
  headerBlind (provider w) ->
  fst (GET (Some t1) request w) = fst (GET (Some t2) request w) /\
  cache (snd (GET (Some t1) request w))
  = cache (snd (GET (Some t2) request w)).
Proof.
  intros H1 H2 Hblind.
  destruct (searchParams_get request "queue") as [name|] eqn:Hq.
  2: { unfold GET. rewrite !truthy_Some, Hq by done. done. }
  destruct (truthy (Some name)) eqn:Hname.
  2: { unfold GET. rewrite !truthy_Some, Hq, Hname by done. done. }
  destruct (JS.includes validQueues name) eqn:Hin.
  2: { unfold GET. rewrite !truthy_Some, Hq, Hname by done. cbn [negb].
       change (default "" (Some name)) with name. by rewrite Hin. }
  apply includes_validQueues in Hin as [q ->].
  destruct (getCached (cacheKey q) w) as [[cd|] w1] eqn:Hget.
  - rewrite !(GET_known_queue q _ request w) by done.
    unfold bind. by rewrite Hget.
  - rewrite !(GET_miss q _ request w w1) by done.
    pose proof (getCached_outbound (cacheKey q) w) as [_ Hprov].
    rewrite Hget in Hprov. cbn [snd] in Hprov.
    assert (Hsame : provider w1 (fetches w1)
                             (searchRequest (encodedQueryOf q) t1)
                    = provider w1 (fetches w1)
                               (searchRequest (encodedQueryOf q) t2)).
    { rewrite Hprov. apply Hblind. }
    rewrite Hsame. destruct (outcomeResult _); [done|].
    by destruct (JS.toISOString _).
Qed.

Lemma GET_token_confined_witness :
  fst (GET (Some "ghp_first") needsQaRequest
           (worldWith (answering okResponse)))
  = fst (GET (Some "ghp_second") needsQaRequest
             (worldWith (answering okResponse))).
Proof.
  apply (GET_token_confined "ghp_first" "ghp_second" needsQaRequest
           (worldWith (answering okResponse))).
  - discriminate.
  - discriminate.
  - intros n url h1 h2. reflexivity.
Defined.

(** X10.  A call touches the entry of its own queue only: every entry
    under a key other than [github:queue:] followed by the queue
    parameter of the request is left exactly as it was, whatever the
    token, the request and the provider are. *)
Theorem GET_other_entries_untouched (token : option string)
  (request : Request) (w : World CachedQueue) (key : string) :
  (forall name, searchParams_get request "queue" = Some name ->
                key <> "github:queue:" +:+ name) ->
  cache (snd (GET token request w)) !! key = cache w !! key.
Proof.
  intros Hkey.
  destruct (truthy token) eqn:Htok; [|unfold GET; by rewrite Htok].
  destruct token as [[|c t]|]; try done. set (tok := String c t).
  assert (Htok' : tok <> "") by done.
  destruct (searchParams_get request "queue") as [name|] eqn:Hq.
  2: { unfold GET. cbn [truthy negb]. by rewrite Hq. }
  destruct (truthy (Some name)) eqn:Hname.
  2: { unfold GET. cbn [truthy negb]. by rewrite Hq, Hname. }
  destruct (JS.includes validQueues name) eqn:Hin.
  2: { unfold GET. cbn [truthy negb]. rewrite Hq, Hname. cbn [negb].
       change (default "" (Some name)) with name. by rewrite Hin. }
  specialize (Hkey name eq_refl).
  apply includes_validQueues in Hin as [q ->].
  assert (Hread : cache (snd (getCached (cacheKey q) w)) !! key
                  = cache w !! key).
  { apply (runOp_untouched key (Get (cacheKey q)) w).
    cbn. apply String.eqb_neq. by intros <-. }
  destruct (getCached (cacheKey q) w) as [[cd|] w1] eqn:Hget;
    cbn [snd] in Hread.
  - rewrite (GET_known_queue q tok request w Htok' Hq).
    unfold bind. by rewrite Hget.
  - rewrite (GET_miss q tok request w w1 Htok' Hq Hget).
    destruct (outcomeResult _); [done|].
    destruct (JS.toISOString _); [|done].
    rewrite setCache_eq. cbn [snd setCacheMap cache tick Date_now sent].
    rewrite lookup_insert_ne; [done|]. by intros <-.
Qed.

Lemma GET_other_entries_untouched_witness :
  cache (snd (GET (Some "token") needsQaRequest
                  (snd (GET (Some "token")
                            {| searchParams := [("queue", "in-flight")] |}
                            (worldWith (answering okResponse))))))
    !! cacheKey InFlight
  = cache (snd (GET (Some "token")
                    {| searchParams := [("queue", "in-flight")] |}
                    (worldWith (answering okResponse))))
      !! cacheKey InFlight.
Proof.
  apply GET_other_entries_untouched.
  intros name [= <-]. discriminate.
Defined.

(** X11.  The two lists of queues agree: the query builder has a query
    for exactly the names the handler lets through, so its [Unknown queue
    type] error never comes out of the handler; for every other name it
    throws that error with the name in the message. *)
Theorem query_builder_matches_validation (name : string) :
  (JS.includes validQueues name = true ->
   exists query, getQueryForQueue name = inr query) /\
  (JS.includes validQueues name = false ->
   getQueryForQueue name = inl (Error ("Unknown queue type: " +:+ name))).
Proof.
  split.
  - intros [q ->]%includes_validQueues.
    destruct (encodeQuery_queue q) as (query & Hq & _). by exists query.
  - unfold JS.includes, validQueues. cbn [existsb].
    intros H. repeat (apply orb_false_elim in H as [? H]).
    unfold getQueryForQueue.
    repeat match goal with
           | Hx : String.eqb name ?s = false |- _ => rewrite Hx; clear Hx
           end.
    reflexivity.
Qed.

Example query_builder_unknown :
  getQueryForQueue "bogus" = inl (Error "Unknown queue type: bogus") /\
  getQueryForQueue "Needs-QA" = inl (Error "Unknown queue type: Needs-QA").
Proof. split; reflexivity. Qed.

Lemma chars_append (a b : string) :
  list_ascii_of_string (a +:+ b)
  = list_ascii_of_string a ++ list_ascii_of_string b.
Proof.
  induction a as [|c a IH]; [done|].
  rewrite append_cons. cbn. by rewrite IH.
Qed.

(** X12.  The encoding of the query: the result holds no double quote,
    whatever the query, and encoding twice is encoding once. *)
Theorem encodeQuery_no_quote (query : string) :
  ~ In (ascii_of_N 34) (list_ascii_of_string (encodeQuery query)) /\
  encodeQuery (encodeQuery query) = encodeQuery query.
Proof.
  assert (Hno : ~ In (ascii_of_N 34)
                     (list_ascii_of_string (encodeQuery query))).
  { unfold encodeQuery. induction query as [|c s IH]; [by intros []|].
    cbn [JS.replaceAllChar]. rewrite chars_append.
    intros [Hin|Hin]%in_app_or; [|by apply IH].
    destruct (Ascii.eqb_spec c (ascii_of_N 34)) as [->|Hne].
    - vm_compute in Hin. intuition discriminate.
    - destruct Hin as [->|[]]. by apply Hne. }
  split; [exact Hno|].
  apply encodeQuery_literal. intros c Hin ->. by apply Hno.
Qed.

(** ** Derivation rules *)

Lemma canonicalize_fixed_or_urlChar (c : ascii) :
  JS.canonicalize c = c \/ urlChar c = true.
Proof.
  destruct c as [[] [] [] [] [] [] [] []];
    ((left; reflexivity) || (right; reflexivity)).
Qed.

Lemma urlChar_canonicalize (c : ascii) :
  urlChar c = true -> urlChar (JS.canonicalize c) = true.
Proof.
  destruct c as [[] [] [] [] [] [] [] []]; vm_compute; congruence.
Qed.

Lemma ciEq_urlChars (a : list ascii) (p : string) :
  ciEq a p ->
  Forall (fun c => urlChar c = true) (list_ascii_of_string p) ->
  Forall (fun c => urlChar c = true) a.
Proof.
  unfold ciEq. revert a. induction p as [|d p IH]; intros a Ha Hp.
  - destruct a; [constructor|done].
  - destruct a as [|c a]; [done|]. cbn in Ha, Hp.
    injection Ha as Hc Ha. apply Forall_cons in Hp as [Hd Hp].
    constructor; [|by apply IH].
    destruct (canonicalize_fixed_or_urlChar c) as [Hfix|Hurl]; [|done].
    rewrite <- Hfix, Hc. by apply urlChar_canonicalize.
Qed.

(** X13.  The shape of a preview URL: whatever body it is taken from, it
    starts with [http://] or [https://], in any case of the letters, goes
    on with at least one more character, and holds no white space and no
    closing parenthesis anywhere. *)
Theorem preview_url_shape (body url : string) :
  extractPreviewUrl body = Some url ->
  IsUrl (list_ascii_of_string url) /\
  Forall (fun c => JS.isSpace c = false /\ c <> ")"%char)
         (list_ascii_of_string url).
Proof.
  intros (pre & suf & _ & Hat & _)%extractPreviewUrl_some.
  destruct Hat as (kw & sep & ws & rest & _ & _ & _ & _ & Hurl & _).
  split; [exact Hurl|].
  destruct Hurl as (scheme & tail & -> & Hscheme & _ & Htail).
  assert (Hs : Forall (fun c => urlChar c = true) scheme).
  { destruct Hscheme as [H|H]; apply (ciEq_urlChars _ _ H);
      by repeat constructor. }
  assert (Hall : Forall (fun c => urlChar c = true) (scheme ++ tail))
    by (apply Forall_app; by split).
  eapply Forall_impl; [exact Hall|].
  intros c Hc. unfold urlChar in Hc.
  apply andb_prop in Hc as [H1 H2].
  apply negb_true_iff in H1, H2. split; [done|].
  by apply Ascii.eqb_neq.
Qed.

Lemma preview_url_shape_witness :
  IsUrl (list_ascii_of_string "HTTPS://pr-7.example.dev/a(b") /\
  Forall (fun c => JS.isSpace c = false /\ c <> ")"%char)
         (list_ascii_of_string "HTTPS://pr-7.example.dev/a(b").
Proof.
  apply (preview_url_shape
           "Deployed. (Deploy  URL: HTTPS://pr-7.example.dev/a(b) ok)").
  reflexivity.
Defined.

Lemma trimStart_skip (s : list ascii) : JS.trimStart s = skip JS.isSpace s.
Proof. induction s as [|c s IH]; [done|]. cbn. by rewrite IH. Qed.

(** [trim] cuts white space off both ends and nothing else. *)
Lemma trim_middle (x : list ascii) :
  exists ws1 ws2 : list ascii,
    x = ws1 ++ JS.trim x ++ ws2 /\ spaces ws1 /\ spaces ws2.
Proof.
  unfold JS.trim, JS.trimEnd. rewrite !trimStart_skip.
  set (y := skip JS.isSpace x).
  exists (span JS.isSpace x), (rev (span JS.isSpace (rev y))).
  split; [|split; [apply span_all|apply Forall_rev, span_all]].
  rewrite <- rev_app_distr, <- span_skip, rev_involutive.
  apply span_skip.
Qed.

(** What [trim] gives starts and ends with a character that is not white
    space. *)
Lemma trim_ends (x : list ascii) :
  match JS.trim x with
  | c :: _ => JS.isSpace c = false
  | [] => True
  end /\
  match rev (JS.trim x) with
  | c :: _ => JS.isSpace c = false
  | [] => True
  end.
Proof.
  unfold JS.trim, JS.trimEnd. rewrite !trimStart_skip, rev_involutive.
  set (y := skip JS.isSpace x). split; [|apply skip_stops].
  pose proof (skip_stops JS.isSpace x) as Hy. fold y in Hy.
  pose proof (span_skip JS.isSpace (rev y)) as Hrev.
  pose proof (skip_stops JS.isSpace (rev y)) as Hstop.
  destruct (rev (skip JS.isSpace (rev y))) as [|c t] eqn:Ht; [done|].
  assert (Hy' : y = (c :: t) ++ rev (span JS.isSpace (rev y))).
  { rewrite <- Ht, <- rev_app_distr, <- Hrev. by rewrite rev_involutive. }
  rewrite Hy' in Hy. exact Hy.
Qed.

Lemma firstAt_inv {X} (f : list ascii -> option X) (s : list ascii)
  (x : X) :
  firstAt f s = Some x ->
  exists pre suf : list ascii, s = pre ++ suf /\ f suf = Some x.
Proof.
  induction s as [|c s IH]; cbn [firstAt].
  - destruct (f []) eqn:Hf; [|done]. intros [= ->]. by exists [], [].
  - destruct (f (c :: s)) eqn:Hf.
    + intros [= ->]. by exists [], (c :: s).
    + intros (pre & suf & -> & Hs)%IH. by exists (c :: pre), suf.
Qed.

(** The white space that [\s*] takes before the line feed. *)
Lemma afterLastLF_inv (s start : list ascii) :
  afterLastLF s = Some start ->
  exists pre : list ascii, s = pre ++ LF :: start /\ spaces pre.
Proof.
  revert start. induction s as [|c s IH]; intros start; [done|].
  cbn [afterLastLF]. destruct (JS.isSpace c) eqn:Hc; [|done].
  destruct (afterLastLF s) as [r|].
  - intros [= <-]. destruct (IH r eq_refl) as (pre & -> & Hpre).
    exists (c :: pre). split; [done|]. by constructor.
  - destruct (Ascii.eqb_spec c LF) as [->|]; [|done].
    intros [= <-]. exists []. split; [done|]. constructor.
Qed.

(** The lazy capture ends where the input ends or before a line feed
    followed by [##]. *)
Lemma briefText_stop (s : list ascii) :
  exists rest : list ascii,
    s = briefText s ++ rest /\
    (rest = [] \/ exists r, rest = LF :: "#"%char :: "#"%char :: r).
Proof.
  induction s as [|c s (rest & IH & Hrest)]; [exists []; by split; [|left]|].
  cbn [briefText]. destruct (stopsBrief (c :: s)) eqn:Hstop.
  - exists (c :: s). split; [done|]. right.
    destruct s as [|c2 [|c3 r]]; [done|done|]. cbn in Hstop.
    apply andb_prop in Hstop as [Hstop H3].
    apply andb_prop in Hstop as [H1 H2].
    apply Ascii.eqb_eq in H1, H2, H3. subst. by exists r.
  - exists rest. split; [|done]. cbn. by rewrite <- IH.
Qed.

(** The captured text holds no line feed followed by [##]. *)
Lemma briefText_no_heading (s l r : list ascii) :
  briefText s <> l ++ LF :: "#"%char :: "#"%char :: r.
Proof.
  revert l. induction s as [|c s IH]; intros l; [by destruct l|].
  cbn [briefText]. destruct (stopsBrief (c :: s)) eqn:Hstop;
    [by destruct l|].
  destruct l as [|d l]; cbn [app]; [|intros [= _ H]; by apply (IH l)].
  intros [= -> Hs].
  destruct (briefText_prefix s) as [rest Hrest]. rewrite Hs in Hrest.
  rewrite Hrest in Hstop. cbn in Hstop. discriminate Hstop.
Qed.

(** One match of [briefRe], laid out: the two hashes, white space, the
    title in any case of the letters, white space that ends in a line
    feed, the captured text, and what stops it. *)
Lemma briefAt_layout (s text : list ascii) :
  briefAt s = Some text ->
  exists hashes sp1 title sp2 post : list ascii,
    s = hashes ++ sp1 ++ title ++ sp2 ++ LF :: text ++ post /\
    ciEq hashes "##" /\ spaces sp1 /\ ciEq title "Agent Brief" /\
    spaces sp2 /\
    (post = [] \/ exists r, post = LF :: "#"%char :: "#"%char :: r) /\
    forall l r : list ascii, text <> l ++ LF :: "#"%char :: "#"%char :: r.
Proof.
  unfold briefAt.
  destruct (matchLit true _ s) as [s1|] eqn:H1; [|done].
  apply matchLit_inv in H1 as (m1 & -> & Hm1).
  destruct (matchLit true _ (skip JS.isSpace s1)) as [s2|] eqn:H2; [|done].
  apply matchLit_inv in H2 as (m2 & Hs1 & Hm2).
  destruct (afterLastLF s2) as [start|] eqn:H3; [|done].
  apply afterLastLF_inv in H3 as (pre & -> & Hpre). intros [= <-].
  destruct (briefText_stop start) as (rest & Hrest & Hstop).
  exists m1, (span JS.isSpace s1), m2, pre, rest.
  split.
  { rewrite (span_skip JS.isSpace s1) at 1. rewrite Hs1.
    rewrite Hrest at 1. repeat rewrite <- app_assoc. reflexivity. }
  split; [exact Hm1|]. split; [apply span_all|].
  split; [exact Hm2|]. split; [exact Hpre|]. split; [exact Hstop|].
  apply briefText_no_heading.
Qed.

(** X14.  What an agent brief is: the text [extractAgentBrief] returns has
    at least 10 characters and starts and ends with a character that is
    not white space.  The body holds [##], white space, [Agent Brief] in
    any case of the letters, and white space that ends in a line feed;
    the brief comes next, with white space around it, and the stretch
    ends where the body ends or before the first line feed followed by
    [##] that comes after that line feed.  So no line feed followed by
    [##] lies inside the brief. *)
Theorem agent_brief_result (body brief : string) :
  extractAgentBrief body = Some brief ->
  let b := list_ascii_of_string brief in
  (10 <= length b)%nat /\
  (exists (first last : ascii) (mid : list ascii),
     b = first :: mid ++ [last] /\
     JS.isSpace first = false /\ JS.isSpace last = false) /\
  (exists before hashes sp1 title sp2 ws1 ws2 post : list ascii,
     list_ascii_of_string body
     = before ++ hashes ++ sp1 ++ title ++ sp2
       ++ LF :: (ws1 ++ b ++ ws2) ++ post /\
     ciEq hashes "##" /\ spaces sp1 /\ ciEq title "Agent Brief" /\
     spaces sp2 /\ spaces ws1 /\ spaces ws2 /\
     (post = [] \/ exists r, post = LF :: "#"%char :: "#"%char :: r) /\
     forall l r : list ascii,
       ws1 ++ b ++ ws2 <> l ++ LF :: "#"%char :: "#"%char :: r) /\
  (forall l r : list ascii, b <> l ++ LF :: "#"%char :: "#"%char :: r).
Proof.
  rewrite extractAgentBrief_scan.
  destruct (firstAt briefAt _) as [text|] eqn:Hfirst; [|done].
  destruct (Nat.ltb_spec (length (JS.trim text)) 10) as [|Hlen]; [done|].
  intros [= <-]. cbn zeta. rewrite list_ascii_of_string_of_list_ascii.
  apply firstAt_inv in Hfirst as (before & suf & Hbody & Hat).
  apply briefAt_layout in Hat
    as (hashes & sp1 & title & sp2 & post & -> & Hh & Hsp1 & Ht & Hsp2
        & Hpost & Hno).
  destruct (trim_middle text) as (ws1 & ws2 & Htext & Hws1 & Hws2).
  split; [exact Hlen|]. split; [|split].
  - pose proof (trim_ends text) as [Hhead Hlast].
    destruct (JS.trim text) as [|first t] eqn:Htrim; [cbn in Hlen; lia|].
    destruct (rev (first :: t)) as [|last t'] eqn:Hrev.
    { apply (f_equal (@length ascii)) in Hrev.
      rewrite length_rev in Hrev. done. }
    assert (Hft : first :: t = rev t' ++ [last]).
    { rewrite <- (rev_involutive (first :: t)), Hrev. reflexivity. }
    destruct (rev t') as [|x mid] eqn:Hmid.
    + cbn in Hft. injection Hft as -> ->. cbn in Hlen. lia.
    + cbn in Hft. injection Hft as -> ->. by exists x, last, mid.
  - exists before, hashes, sp1, title, sp2, ws1, ws2, post.
    rewrite <- Htext. by rewrite Hbody.
  - intros l r Heq. apply (Hno (ws1 ++ l) (r ++ ws2)).
    rewrite Htext, Heq. repeat rewrite <- app_assoc. reflexivity.
Qed.

Lemma agent_brief_result_witness :
  (10 <= length (list_ascii_of_string "Ship the queue page."))%nat.
Proof.
  apply (agent_brief_result
           ("Intro" +:+ String LF ("###  agent brief " +:+ String LF
              (String LF ("  Ship the queue page.  "
               +:+ String LF "## Notes"))))
           "Ship the queue page.").
  reflexivity.
Defined.

(** The brief is what follows the heading, not what the section holds:
    after an empty section it is the next section, heading included, and
    a heading with one [#] does not end it. *)
Example agent_brief_with_heading :
  extractAgentBrief
    ("## Agent Brief" +:+ String LF (String LF
       ("## Next steps" +:+ String LF "- ship it")))
  = Some ("## Next steps" +:+ String LF "- ship it") /\
  extractAgentBrief
    ("## Agent Brief" +:+ String LF
       ("Do the work." +:+ String LF "# Notes"))
  = Some ("Do the work." +:+ String LF "# Notes").
Proof. split; reflexivity. Qed.

(** X15.  Labels on a card: the card carries the labels of the item
    unchanged; every status label and every needs label is the name of
    one of them, and no name is counted as both. *)
Theorem label_lists (issue : GitHubIssue) :
  let card := normalizeGitHubIssue issue in
  let names := map Label.name (Issue.labels issue) in
  Card.labels card = Issue.labels issue /\
  (forall n, In n (Card.statusLabels card) -> In n names) /\
  (forall n, In n (Card.needsLabels card) -> In n names) /\
  (forall n, In n (Card.statusLabels card) ->
             In n (Card.needsLabels card) -> False).
Proof.
  intros card names.
  destruct (normalize_labels issue) as (Hs & Hn & _).
  fold card names in Hs, Hn. rewrite Hs, Hn.
  split; [apply labels_rebuilt|].
  split; [intros n [H _]%filter_In; exact H|].
  split; [intros n [H _]%filter_In; exact H|].
  intros n [_ H1]%filter_In [_ H2]%filter_In.
  apply prefix_spec in H1 as [r1 ->]. apply prefix_spec in H2 as [r2 H2].
  discriminate H2.
Qed.

(** X16.  An item without body: a body that is [null] and a body that is
    the empty string give the same card, with the empty string as body,
    no preview URL and no agent brief. *)
Theorem normalize_without_body (issue : GitHubIssue) :
  Issue.body issue = None \/ Issue.body issue = Some "" ->
  let card := normalizeGitHubIssue issue in
  Card.body card = "" /\ Card.previewUrl card = None /\
  Card.hasAgentBrief card = false /\
  card = normalizeGitHubIssue
           (Issue.mk (Issue.number issue) (Issue.title issue)
                     (Issue.html_url issue) (Some "")
                     (Issue.labels issue) (Issue.updated_at issue)
                     (Issue.pull_request issue)).
Proof.
  intros Hbody. unfold normalizeGitHubIssue. cbn [Issue.body Issue.number
    Issue.title Issue.html_url Issue.labels Issue.updated_at
    Issue.pull_request Card.body Card.previewUrl Card.hasAgentBrief].
  by destruct Hbody as [-> | ->].
Qed.

Lemma normalize_without_body_witness :
  Card.body (normalizeGitHubIssue
               (Issue.mk 9 "No body" "https://github.com/o/r/issues/9" None
                         [Label.mk "needs:pm" "c5def5" None]
                         "2026-04-01T00:00:00Z" None)) = "".
Proof.
  apply (normalize_without_body
           (Issue.mk 9 "No body" "https://github.com/o/r/issues/9" None
                     [Label.mk "needs:pm" "c5def5" None]
                     "2026-04-01T00:00:00Z" None)).
  by left.
Defined.

(** ** The password gate *)

Section Login.

Variables passwordVar cookieName : string.

(** X17.  Who gets in: the login answers 200 and sets the cookie exactly
    when a password is configured, it is not empty, and the body is a JSON
    value whose [password] member is that very string.  The cookie then is
    [authenticated], [httpOnly], [sameSite=lax], for the path [/] and for
    604800 seconds, and [secure] exactly in production. *)
Theorem login_success (env : Env) (requestJson : Exn + Json) :
  let r := loginPOST passwordVar cookieName env requestJson in
  (login_status r = 200%Z <->
   exists (value : Json) (correct : string),
     requestJson = inr value /\
     env !! passwordVar = Some correct /\ correct <> "" /\
     jsonProperty value "password" = Some (JString correct)) /\
  (login_status r = 200%Z ->
   login_body r = LoginSuccess /\
   login_cookie r
   = Some {| cookie_name := cookieName; cookie_value := "authenticated";
             httpOnly := true;
             secure := bool_decide (env !! "NODE_ENV" = Some "production");
             sameSite := "lax"; maxAge := 604800; cookie_path := "/" |}).
Proof.
  cbn zeta. unfold loginPOST.
  destruct requestJson as [e|value].
  { split; [split; [done|by intros (v & c & [=] & _)]|done]. }
  assert (Hsecure : match env !! "NODE_ENV" with
                    | Some mode => String.eqb mode "production"
                    | None => false
                    end
                    = bool_decide (env !! "NODE_ENV" = Some "production")).
  { destruct (env !! "NODE_ENV") as [mode|]; [|done].
    destruct (String.eqb_spec mode "production") as [->|Hne].
    - by rewrite bool_decide_eq_true_2.
    - rewrite bool_decide_eq_false_2; [done|]. by intros [= ->]. }
  rewrite Hsecure.
  assert (Hnull : value = JNull ->
                  jsonProperty value "password" = None) by (by intros ->).
  destruct (env !! passwordVar) as [[|c correct]|] eqn:Henv.
  1, 3: destruct value; cbn [truthy negb loginError login_status];
        (split; [split; [done|]|done]);
        intros (v & c' & _ & [=] & Hne & _); done.
  set (pw := String c correct) in *.
  destruct (jsonProperty value "password") as [[| | |given| |]|] eqn:Hp.
  4: { destruct (String.eqb_spec given pw) as [->|Hne].
       - destruct value; try (by (cbn in Hp)).
         all: cbn [truthy negb login_status login_body login_cookie];
           (split; [split; [intros _; eexists _, pw; by repeat split|done]
                   |done]).
       - destruct value; cbn [truthy negb loginError login_status];
           (split; [split; [done|]|done]);
           intros (v & c' & [= <-] & [= <-] & _ & Hv);
           rewrite Hp in Hv; congruence. }
  all: destruct value; cbn [truthy negb loginError login_status];
    (split; [split; [done|]|done]);
    intros (v & c' & [= <-] & _ & _ & Hv); rewrite Hp in Hv; congruence.
Qed.

(** X18.  Who does not get in: the status is 200, 401 or 500; the cookie
    is set on 200 only; and with no password configured, or an empty one,
    every request is answered 500, also one that sends no password or the
    empty one. *)
Theorem login_failures (env : Env) (requestJson : Exn + Json) :
  let r := loginPOST passwordVar cookieName env requestJson in
  In (login_status r) [200; 401; 500]%Z /\
  (login_cookie r = None <-> login_status r <> 200%Z) /\
  (truthy (env !! passwordVar) = false ->
   login_status r = 500%Z /\ login_cookie r = None).
Proof.
  cbn zeta. unfold loginPOST.
  destruct requestJson as [e|value].
  { cbn. split; [auto|]. split; [split; [discriminate|done]|done]. }
  destruct (truthy (env !! passwordVar)) eqn:Ht.
  - destruct (jsonProperty value "password") as [[| | |given| |]|];
      destruct (env !! passwordVar) as [correct|];
      try destruct (String.eqb given correct);
      destruct value; cbn [negb loginError login_status login_cookie In];
      (split; [auto 6|]); (split; [|done]);
      split; (discriminate || done).
  - destruct value; cbn [negb loginError login_status login_cookie In];
      (split; [auto 6|]); (split; [|done]); split; (discriminate || done).
Qed.

End Login.

(** The only cookie a login sets. *)
Lemma loginPOST_cookie (passwordVar cookieName : string) (env : Env)
  (requestJson : Exn + Json) (c : Cookie) :
  login_cookie (loginPOST passwordVar cookieName env requestJson) = Some c ->
  cookie_name c = cookieName /\ cookie_value c = "authenticated".
Proof.
  unfold loginPOST.
  destruct requestJson as [e|value]; [done|].
  destruct (truthy (env !! passwordVar));
    destruct (jsonProperty value "password") as [[| | |given| |]|];
    destruct (env !! passwordVar) as [correct|];
    try destruct (String.eqb given correct);
    destruct value; cbn [negb loginError login_cookie];
    try discriminate; by intros [= <-].
Qed.

(** When the middleware lets a request through. *)
Lemma middleware_next (request : PageRequest) :
  middleware request = Next <->
  pathname request = "/login" \/ pathname request = "/api/auth/login" \/
  cookies request !! "dfg-core-auth" = Some "authenticated".
Proof.
  unfold middleware.
  destruct (String.eqb_spec (pathname request) "/login") as [Hl|Hl].
  { cbn [orb]. split; auto. }
  destruct (String.eqb_spec (pathname request) "/api/auth/login") as [Ha|Ha].
  { cbn [orb]. split; auto. }
  cbn [orb].
  destruct (cookies request !! "dfg-core-auth") as [value|].
  - destruct (String.eqb_spec value "authenticated") as [->|Hv].
    + split; auto.
    + split; [done|]. intros [?|[?|[= ?]]]; done.
  - split; [done|]. intros [?|[?|?]]; done.
Qed.

Lemma middleware_redirect (request : PageRequest) :
  middleware request <> Next -> middleware request = Redirect "/login".
Proof.
  unfold middleware.
  destruct (_ || _); [done|].
  destruct (cookies request !! "dfg-core-auth") as [value|]; [|done].
  by destruct (String.eqb value "authenticated").
Qed.

(** X19.  The middleware lets a request through exactly when it is for one
    of the two login paths, compared as written, or carries the cookie
    [dfg-core-auth] with the value [authenticated]; every other request is
    sent to [/login], which is itself let through, so that following the
    redirect ends after one step. *)
Theorem middleware_gate (request : PageRequest) :
  (middleware request = Next <->
   pathname request = "/login" \/ pathname request = "/api/auth/login" \/
   cookies request !! "dfg-core-auth" = Some "authenticated") /\
  (middleware request <> Next ->
   middleware request = Redirect "/login" /\
   middleware {| pathname := "/login"; cookies := cookies request |} = Next).
Proof.
  split; [apply middleware_next|].
  intros Hne. split; [by apply middleware_redirect|done].
Qed.

(** X20.  Login and middleware fit together: the cookie that a successful
    [POST] of the login route sets opens every path, whatever other
    cookies the browser sends along. *)
Theorem login_opens_middleware (env : Env) (requestJson : Exn + Json)
  (c : Cookie) (path : string) (others : gmap string string) :
  login_cookie (POST env requestJson) = Some c ->
  middleware (carrying c path others) = Next.
Proof.
  intros Hc. apply loginPOST_cookie in Hc as [Hname Hvalue].
  apply middleware_next. right. right.
  unfold carrying. cbn [cookies]. rewrite Hname, Hvalue.
  apply lookup_insert_eq.
Qed.

Lemma login_opens_middleware_witness :
  let env : Env := {[ "CORE_ACCESS_PASSWORD" := "s3cret" ]} in
  let sentBody := inr (JObject [("password", JString "s3cret")]) in
  exists c, login_cookie (POST env sentBody) = Some c /\
            middleware (carrying c "/queues" ∅) = Next.
Proof.
  eexists. split.
  - vm_compute. reflexivity.
  - apply (login_opens_middleware
             {[ "CORE_ACCESS_PASSWORD" := "s3cret" ]}
             (inr (JObject [("password", JString "s3cret")]))).
    vm_compute. reflexivity.
Defined.

(** X21.  The cookie of the Command Center login is not the one the
    middleware asks for: a browser that holds only that cookie is sent to
    [/login] on every path but the two login paths. *)
Theorem commandCenter_cookie_not_accepted (env : Env)
  (requestJson : Exn + Json) (c : Cookie) (path : string) :
  login_cookie (POST_commandCenter env requestJson) = Some c ->
  path <> "/login" -> path <> "/api/auth/login" ->
  middleware (carrying c path ∅) = Redirect "/login".
Proof.
  intros Hc Hl Ha. apply loginPOST_cookie in Hc as [Hname Hvalue].
  apply middleware_redirect. intros Hnext.
  apply middleware_next in Hnext.
  unfold carrying in Hnext. cbn [pathname cookies] in Hnext.
  rewrite Hname in Hnext.
  destruct Hnext as [?|[?|Hlook]]; [done|done|].
  rewrite lookup_insert_ne in Hlook; [|done].
  by rewrite lookup_empty in Hlook.
Qed.

Lemma commandCenter_cookie_not_accepted_witness :
  let env : Env := {[ "COMMAND_CENTER_PASSWORD" := "s3cret" ]} in
  let sentBody := inr (JObject [("password", JString "s3cret")]) in
  exists c, login_cookie (POST_commandCenter env sentBody) = Some c /\
            middleware (carrying c "/queues" ∅) = Redirect "/login".
Proof.
  eexists. split.
  - vm_compute. reflexivity.
  - apply (commandCenter_cookie_not_accepted
             {[ "COMMAND_CENTER_PASSWORD" := "s3cret" ]}
             (inr (JObject [("password", JString "s3cret")])));
      [vm_compute; reflexivity|done|done].
Defined.

(** Runs of the two handlers on concrete requests: the right password, a
    wrong one, a password that is not a string, a repeated member, the
    body [null], a body that is no JSON, and no password configured. *)
Example login_runs :
  let env : Env := {[ "CORE_ACCESS_PASSWORD" := "s3cret" ]} in
  let sending value := inr (JObject [("password", value)]) in
  login_status (POST env (sending (JString "s3cret"))) = 200%Z /\
  login_status (POST env (sending (JString "S3cret"))) = 401%Z /\
  login_status (POST env (sending (JNumber "1"))) = 401%Z /\
  login_status (POST env (inr (JObject []))) = 401%Z /\
  login_status
    (POST env (inr (JObject [("password", JString "s3cret");
                             ("password", JString "other")]))) = 401%Z /\
  POST env (inr JNull) = loginError 500 "Authentication failed" /\
  POST env (inl (SyntaxError "Unexpected end of JSON input"))
  = loginError 500 "Authentication failed" /\
  POST ∅ (sending (JString "")) = loginError 500 "Authentication not configured" /\
  POST ∅ (inr JNull) = loginError 500 "Authentication failed".
Proof. vm_compute. repeat split. Qed.

Example middleware_runs :
  middleware {| pathname := "/"; cookies := ∅ |} = Redirect "/login" /\
  middleware {| pathname := "/login/"; cookies := ∅ |} = Redirect "/login" /\
  middleware {| pathname := "/api/github";
                cookies := {[ "dfg-core-auth" := "yes" ]} |}
  = Redirect "/login" /\
  middleware {| pathname := "/api/github";
                cookies := {[ "dfg-core-auth" := "authenticated" ]} |}
  = Next.
Proof. vm_compute. repeat split. Qed.
